(** * Coordinate rounding and ring orientation of [streamlit_app.py]

    A shallow embedding of the helper functions of the geospatial precision
    fixer: [round_coordinates], [fix_cw_to_ccw], [check_coordinate_precision]
    and [check_orientation_stats], of the processing step of the script and
    of its handling of file names, together with the parts of the Python
    runtime and of the geometry library they rest on. *)

From Stdlib Require Import String.
From Stdlib Require Import ZArith List Bool Lia QArith Qabs Ascii Permutation.
Import ListNotations.
Local Open Scope Z_scope.
Local Set Warnings "-register-all".

(** ** Python floats (IEEE 754 binary64) *)

Module Float.

(** A binary64 value: a NaN, an infinity, a signed zero, or a finite
    non-zero number [(-1)^neg * m * 2^e]. *)
Inductive float : Type :=
| FNan
| FInf (neg : bool)
| FZero (neg : bool)
| FFin (neg : bool) (m : positive) (e : Z).

Definition prec : Z := 53.
Definition emin : Z := -1074.
Definition emax : Z := 971.

(** The canonical representations: normal numbers carry a 53-bit mantissa,
    subnormal ones sit at the least exponent. *)
Definition canonical (m : positive) (e : Z) : Prop :=
  (2 ^ 52 <= Z.pos m < 2 ^ 53 /\ emin <= e <= emax)
  \/ (Z.pos m < 2 ^ 52 /\ e = emin).

Definition is_double (x : float) : Prop :=
  match x with
  | FFin _ m e => canonical m e
  | _ => True
  end.

Definition is_finite (x : float) : bool :=
  match x with
  | FZero _ | FFin _ _ _ => true
  | _ => false
  end.

(** Python's [==] on floats: a NaN differs from everything, the two zeros
    are equal. *)
Definition feqb (x y : float) : bool :=
  match x, y with
  | FInf a, FInf b => Bool.eqb a b
  | FZero _, FZero _ => true
  | FFin a m e, FFin b n f => Bool.eqb a b && Pos.eqb m n && Z.eqb e f
  | _, _ => false
  end.

(** The exact value of a finite float as a rational number. *)
Definition to_Q (x : float) : Q :=
  match x with
  | FFin neg m e =>
      let v := if 0 <=? e then inject_Z (Z.pos m * 2 ^ e)
               else Qmake (Z.pos m) (Z.to_pos (2 ^ (- e))) in
      if neg then Qopp v else v
  | _ => 0%Q
  end.

(** Division of a non-negative [a] by a positive [b], rounded to the nearest
    integer, ties to the even one. *)
Definition rne_div (a b : Z) : Z :=
  let q := a / b in
  let r := a mod b in
  if 2 * r <? b then q
  else if b <? 2 * r then q + 1
  else if Z.even q then q else q + 1.

(** [floor (log2 (n / d))] for positive [n] and [d]. *)
Definition ilog2_ratio (n d : Z) : Z :=
  let k := Z.log2 n - Z.log2 d in
  let ge := if 0 <=? k then d * 2 ^ k <=? n else d <=? n * 2 ^ (- k) in
  if ge then k else k - 1.

(** The binary64 number nearest to [n / d] (ties to even), for [n >= 0] and
    [d > 0]; this is what [float(s)] computes from the decimal text [s]. *)
Definition nearest (neg : bool) (n d : Z) : float :=
  if n <=? 0 then FZero neg
  else
    let e := Z.max (ilog2_ratio n d - 52) emin in
    let m := if 0 <=? e then rne_div n (d * 2 ^ e)
             else rne_div (n * 2 ^ (- e)) d in
    let '(m, e) := if m =? 2 ^ 53 then (2 ^ 52, e + 1) else (m, e) in
    if m =? 0 then FZero neg
    else if emax <? e then FInf neg
    else FFin neg (Z.to_pos m) e.

End Float.
Export Float.

(** ** Fixed-point formatting and parsing *)

(** The text produced by [f"{x:.{precision}f}"]: a sign, and the digits of
    the integer [scaled], the last [digits] of them after the point.  The
    texts [nan] and [inf] are kept apart. *)
Inductive fixed_text : Type :=
| TNan
| TInf (neg : bool)
| TDec (neg : bool) (scaled : Z) (digits : Z).

(** [format_f p x] is [f"{x:.{p}f}"] for [0 <= p]: the exact value of [x]
    rounded to [p] fractional digits, ties to even.  A negative value keeps
    its sign even when it rounds to zero. *)
Definition format_f (p : Z) (x : float) : fixed_text :=
  match x with
  | FNan => TNan
  | FInf s => TInf s
  | FZero s => TDec s 0 p
  | FFin s m e =>
      let n := if 0 <=? e then Z.pos m * 2 ^ e * 10 ^ p
               else rne_div (Z.pos m * 10 ^ p) (2 ^ (- e)) in
      TDec s n p
  end.

(** [float(s)] on such a text. *)
Definition float_of_text (t : fixed_text) : float :=
  match t with
  | TNan => FNan
  | TInf s => FInf s
  | TDec s n p => nearest s n (10 ^ p)
  end.

(** ** Exceptions *)

(** The exceptions met in the code: those of the runtime, and the
    [EmptyPartError] of the geometry library. *)
Inductive exn : Type := ValueError | IndexError | TypeError | EmptyPartError.

Inductive result (A : Type) : Type :=
| Ok (a : A)
| Raise (e : exn).
Arguments Ok {A} a.
Arguments Raise {A} e.

Definition bind {A B : Type} (r : result A) (k : A -> result B) : result B :=
  match r with
  | Ok a => k a
  | Raise e => Raise e
  end.

Notation "x <- r ;; k" := (bind r (fun x => k))
  (at level 61, r at next level, right associativity).

(** A list comprehension whose body may raise: the first exception wins. *)
Fixpoint mapM {A B : Type} (f : A -> result B) (l : list A) : result (list B) :=
  match l with
  | [] => Ok []
  | a :: l' => b <- f a ;; bs <- mapM f l' ;; Ok (b :: bs)
  end.

(** ** Geometries *)

Inductive coord : Type :=
| XY (x y : float)
| XYZ (x y z : float).

Definition ring : Type := list coord.

(** Python's [==] on coordinate tuples. *)
Definition coord_eqb (a b : coord) : bool :=
  match a, b with
  | XY x y, XY x' y' => feqb x x' && feqb y y'
  | XYZ x y z, XYZ x' y' z' => feqb x x' && feqb y y' && feqb z z'
  | _, _ => false
  end.

(** A polygon: its exterior ring and its holes.  The empty polygon has an
    empty exterior. *)
Record polygon : Type := mkPolygon {
  exterior : ring;
  interiors : list ring
}.

(** The geometry classes of the library.  The members of a multi-point are
    points with coordinates; a multi-line may hold empty lines and a
    multi-polygon empty polygons, as the well-known text
    [MULTIPOLYGON (EMPTY, ((0 0, 1 0, 1 1, 0 0)))] does.  A [None] geometry
    is Python's [None] and lives in [option geometry]. *)
Inductive geometry : Type :=
| Point (c : option coord)
| LineString (cs : list coord)
| Polygon (p : polygon)
| MultiPoint (ps : list coord)
| MultiLineString (ls : list (list coord))
| MultiPolygon (ps : list polygon)
| GeometryCollection (gs : list geometry).

Definition polygon_is_empty (p : polygon) : bool :=
  match exterior p with [] => true | _ => false end.

Definition coords_is_empty (cs : list coord) : bool :=
  match cs with [] => true | _ => false end.

(** [geom.is_empty] *)
Fixpoint is_empty (g : geometry) : bool :=
  match g with
  | Point None => true
  | Point (Some _) => false
  | LineString cs => coords_is_empty cs
  | Polygon p => polygon_is_empty p
  | MultiPoint ps => coords_is_empty ps
  | MultiLineString ls => forallb coords_is_empty ls
  | MultiPolygon ps => forallb polygon_is_empty ps
  | GeometryCollection gs => forallb is_empty gs
  end.

(** ** [shapely.ops.transform]

    The library first tries the function on whole ordinate columns; a
    function written for single values fails that attempt with a
    [TypeError], and the library then applies it to every coordinate tuple.
    [round_coords] is such a function, so only the second path is taken. *)

(** The constructors that rebuild a multi-geometry from its parts.
    [MultiLineString(lines)] refuses an empty line with [EmptyPartError];
    [MultiPolygon(polygons)] leaves the empty polygons out;
    [GeometryCollection(geoms)] keeps every member. *)
Definition multilinestring (lines : list (list coord)) : result geometry :=
  if existsb coords_is_empty lines then Raise EmptyPartError
  else Ok (MultiLineString lines).

Definition multipolygon (polygons : list polygon) : geometry :=
  MultiPolygon (filter (fun p => negb (polygon_is_empty p)) polygons).

(** [LinearRing(coordinates)]: when the first and the last coordinate tuple
    differ in some ordinate, or when there are only three tuples, the first
    one is added at the end to close the ring; a ring of fewer than four
    tuples is then refused with [ValueError].  Without coordinates the
    empty ring is made. *)
Definition needs_closing (cs : list coord) : bool :=
  match cs with
  | [] => false
  | c :: _ => (length cs =? 3)%nat || negb (coord_eqb c (last cs c))
  end.

Definition close_ring (cs : list coord) : ring :=
  match cs with
  | [] => []
  | c :: _ => if needs_closing cs then cs ++ [c] else cs
  end.

Definition linearring (cs : list coord) : result ring :=
  let r := close_ring cs in
  if coords_is_empty cs || (4 <=? length r)%nat then Ok r
  else Raise ValueError.

Section Transform.
Variable func : coord -> result coord.

Definition transform_line (cs : list coord) : result (list coord) :=
  if coords_is_empty cs then Ok cs else mapM func cs.

Definition transform_ring (r : ring) : result ring :=
  cs <- mapM func r ;; linearring cs.

Definition transform_polygon (p : polygon) : result polygon :=
  if polygon_is_empty p then Ok p
  else
    shell <- transform_ring (exterior p) ;;
    holes <- mapM transform_ring (interiors p) ;;
    Ok (mkPolygon shell holes).

Fixpoint transform (g : geometry) : result geometry :=
  if is_empty g then Ok g
  else
    match g with
    | Point None => Ok g
    | Point (Some c) => c' <- func c ;; Ok (Point (Some c'))
    | LineString cs => cs' <- mapM func cs ;; Ok (LineString cs')
    | Polygon p => p' <- transform_polygon p ;; Ok (Polygon p')
    | MultiPoint ps => ps' <- mapM func ps ;; Ok (MultiPoint ps')
    | MultiLineString ls =>
        ls' <- mapM transform_line ls ;; multilinestring ls'
    | MultiPolygon ps =>
        ps' <- mapM transform_polygon ps ;; Ok (multipolygon ps')
    | GeometryCollection gs =>
        gs' <- (fix parts (l : list geometry) : result (list geometry) :=
                  match l with
                  | [] => Ok []
                  | h :: t => h' <- transform h ;; t' <- parts t ;; Ok (h' :: t')
                  end) gs ;;
        Ok (GeometryCollection gs')
    end.
End Transform.

(** ** [round_coordinates] *)

(** The largest precision a format specification accepts. *)
Definition max_format_precision : Z := 2147483647.

(** [f"{x:.{precision}f}"]: a negative precision is not a valid format
    specification and raises [ValueError]. *)
Definition py_format_f (precision : Z) (x : float) : result fixed_text :=
  if (precision <? 0) || (max_format_precision <? precision)
  then Raise ValueError
  else Ok (format_f precision x).

(** [float(s)] reads at most [10^9] digits: the parser counts the digits
    of the text from its first non-zero digit on, and its fractional
    digits, and raises [ValueError] when either count is above the limit. *)
Definition max_digits : Z := 1000000000.

(** The number of decimal digits of [n >= 0], none for zero. *)
Fixpoint digit_count (fuel : nat) (n : Z) : Z :=
  match fuel with
  | O => 0
  | S fuel' => if n <=? 0 then 0 else 1 + digit_count fuel' (n / 10)
  end.

Definition ndigits (n : Z) : Z := digit_count (S (Z.to_nat (Z.log2 n))) n.

Definition py_float (t : fixed_text) : result float :=
  match t with
  | TDec _ n p =>
      if (max_digits <? ndigits n) || (max_digits <? p) then Raise ValueError
      else Ok (float_of_text t)
  | _ => Ok (float_of_text t)
  end.

(** [float(f"{x:.{precision}f}")] *)
Definition round_ordinate (precision : Z) (x : float) : result float :=
  t <- py_format_f precision x ;; py_float t.

Definition round_coords (precision : Z) (c : coord) : result coord :=
  match c with
  | XY x y =>
      x_rounded <- round_ordinate precision x ;;
      y_rounded <- round_ordinate precision y ;;
      Ok (XY x_rounded y_rounded)
  | XYZ x y z =>
      x_rounded <- round_ordinate precision x ;;
      y_rounded <- round_ordinate precision y ;;
      z_rounded <- round_ordinate precision z ;;
      Ok (XYZ x_rounded y_rounded z_rounded)
  end.

Definition round_coordinates (geom : option geometry) (precision : Z)
  : result (option geometry) :=
  match geom with
  | None => Ok None
  | Some g => g' <- transform (round_coords precision) g ;; Ok (Some g')
  end.

(** ** Signed area and winding

    Areas are computed here in exact arithmetic: a ring whose ordinates are
    all finite has a rational signed area, computed from the exact values
    of its ordinates, and a ring with a NaN or an infinite ordinate has an
    undefined one ([None], the model of a NaN result: every comparison with
    it is false). *)

Definition coord_x (c : coord) : float :=
  match c with XY x _ | XYZ x _ _ => x end.
Definition coord_y (c : coord) : float :=
  match c with XY _ y | XYZ _ y _ => y end.

Definition xy_finite (c : coord) : bool :=
  is_finite (coord_x c) && is_finite (coord_y c).

Definition xyq (c : coord) : Q * Q := (to_Q (coord_x c), to_Q (coord_y c)).

(** [sum(xs[1:-1] * (ys[2:] - ys[:-2]))] *)
Fixpoint tri_sum (l : list (Q * Q)) : Q :=
  match l with
  | a :: ((b :: c :: _) as t) => (fst b * (snd c - snd a) + tri_sum t)%Q
  | _ => 0%Q
  end.

(** [shapely.algorithms.cga.signed_area]: the ring's coordinates, followed
    by its second coordinate once more, summed by the shoelace formula and
    halved.  A ring without a second coordinate makes [coords[1]] raise
    [IndexError]. *)
Definition signed_area (r : ring) : result (option Q) :=
  match r with
  | _ :: c1 :: _ =>
      Ok (if forallb xy_finite r
          then Some (tri_sum (map xyq r ++ [xyq c1]) / 2)%Q
          else None)
  | _ => Raise IndexError
  end.

(** [a >= 0.0] and [a <= 0.0] on a possibly undefined area. *)
Definition area_ge0 (a : option Q) : bool :=
  match a with Some q => Qle_bool 0 q | None => false end.
Definition area_le0 (a : option Q) : bool :=
  match a with Some q => Qle_bool q 0 | None => false end.

(** Modelled from the spec: [shapely.is_ccw] is not part of the source; the
    specification classifies a ring by the sign of its signed area, counter
    clockwise when it is positive.  A ring of fewer than four coordinates is
    never counter clockwise. *)
Definition is_ccw (r : ring) : bool :=
  match r with
  | _ :: _ :: _ :: _ :: _ =>
      match signed_area r with
      | Ok (Some q) => negb (Qle_bool q 0)
      | _ => false
      end
  | _ => false
  end.

(** ** [check_orientation_stats] *)

(** The unsigned area of a ring; a ring too short to have one has area 0. *)
Definition ring_area (r : ring) : option Q :=
  match signed_area r with
  | Ok a => option_map Qabs a
  | Raise _ => Some 0%Q
  end.

Definition area_sub (a b : option Q) : option Q :=
  match a, b with
  | Some x, Some y => Some (x - y)%Q
  | _, _ => None
  end.

(** [poly.area]: the area enclosed by the exterior less the areas of the
    holes. *)
Definition polygon_area (p : polygon) : option Q :=
  fold_left (fun acc h => area_sub acc (ring_area h)) (interiors p)
            (ring_area (exterior p)).

(** [a > b] on possibly undefined areas. *)
Definition area_gt (a b : option Q) : bool :=
  match a, b with
  | Some x, Some y => negb (Qle_bool x y)
  | _, _ => false
  end.

(** Python's [max(iterable, key=...)]: the first item is the candidate, and
    a later item replaces it only when its key is strictly greater; an
    empty iterable raises [ValueError]. *)
Section PyMax.
Context {A K : Type}.
Variable gt : K -> K -> bool.
Variable key : A -> K.

Fixpoint py_max_from (maxitem : A) (maxval : K) (l : list A) : A :=
  match l with
  | [] => maxitem
  | item :: l' =>
      if gt (key item) maxval
      then py_max_from item (key item) l'
      else py_max_from maxitem maxval l'
  end.

Definition py_max (l : list A) : result A :=
  match l with
  | [] => Raise ValueError
  | item :: l' => Ok (py_max_from item (key item) l')
  end.
End PyMax.

Record stats : Type := mkStats {
  ccw_count : nat;
  cw_count : nat;
  other_count : nat
}.

Definition add_ccw (s : stats) : stats :=
  mkStats (ccw_count s + 1) (cw_count s) (other_count s).
Definition add_cw (s : stats) : stats :=
  mkStats (ccw_count s) (cw_count s + 1) (other_count s).
Definition add_other (s : stats) : stats :=
  mkStats (ccw_count s) (cw_count s) (other_count s + 1).

(** The winding tested by the loop body for one polygonal geometry. *)
Definition largest_poly (ps : list polygon) : result polygon :=
  py_max area_gt polygon_area ps.

(** One turn of the loop over [gdf["geometry"]]. *)
Definition count_geometry (s : stats) (geom : option geometry) : result stats :=
  match geom with
  | Some (Polygon p) =>
      Ok (if is_ccw (exterior p) then add_ccw s else add_cw s)
  | Some (MultiPolygon ps) =>
      largest <- largest_poly ps ;;
      Ok (if is_ccw (exterior largest) then add_ccw s else add_cw s)
  | _ => Ok (add_other s)
  end.

Fixpoint count_geometries (s : stats) (gdf : list (option geometry))
  : result stats :=
  match gdf with
  | [] => Ok s
  | geom :: rest => s' <- count_geometry s geom ;; count_geometries s' rest
  end.

Definition check_orientation_stats (gdf : list (option geometry))
  : result stats :=
  count_geometries (mkStats 0 0 0) gdf.

(** ** Shape of a geometry *)

Inductive geom_tag : Type :=
| TagNull | TagPoint | TagLineString | TagPolygon | TagMultiPoint
| TagMultiLineString | TagMultiPolygon | TagGeometryCollection.

Definition geom_type (g : geometry) : geom_tag :=
  match g with
  | Point _ => TagPoint
  | LineString _ => TagLineString
  | Polygon _ => TagPolygon
  | MultiPoint _ => TagMultiPoint
  | MultiLineString _ => TagMultiLineString
  | MultiPolygon _ => TagMultiPolygon
  | GeometryCollection _ => TagGeometryCollection
  end.

Definition tag_of (geom : option geometry) : geom_tag :=
  match geom with None => TagNull | Some g => geom_type g end.

Definition sum_map {A : Type} (f : A -> nat) (l : list A) : nat :=
  fold_right (fun a n => (f a + n)%nat) 0%nat l.

Definition polygon_rings (p : polygon) : list ring :=
  exterior p :: interiors p.

(** The empty polygon has no vertex and no ring. *)
Definition polygon_vertices (p : polygon) : nat :=
  if polygon_is_empty p then 0%nat
  else sum_map (@length coord) (polygon_rings p).


Fixpoint vertex_count (g : geometry) : nat :=
  match g with
  | Point None => 0
  | Point (Some _) => 1
  | LineString cs => length cs
  | Polygon p => polygon_vertices p
  | MultiPoint ps => length ps
  | MultiLineString ls => sum_map (@length coord) ls
  | MultiPolygon ps => sum_map polygon_vertices ps
  | GeometryCollection gs => sum_map vertex_count gs
  end.



(** All the rings of a geometry, in order. *)
Fixpoint rings (g : geometry) : list ring :=
  match g with
  | Polygon p => polygon_rings p
  | MultiPolygon ps => flat_map polygon_rings ps
  | GeometryCollection gs => flat_map rings gs
  | _ => []
  end.

(** A ring is closed when its first coordinate tuple equals its last. *)
Definition ring_closed (r : ring) : bool :=
  match r with
  | [] => true
  | c :: _ => coord_eqb c (last r c)
  end.

(** ** The rounding as a pure map *)

Definition round_value (p : Z) (x : float) : float :=
  float_of_text (format_f p x).

Definition round_tuple (p : Z) (c : coord) : coord :=
  match c with
  | XY x y => XY (round_value p x) (round_value p y)
  | XYZ x y z => XYZ (round_value p x) (round_value p y) (round_value p z)
  end.

Definition map_ring (f : coord -> coord) (r : ring) : ring :=
  close_ring (map f r).

Definition map_polygon (f : coord -> coord) (p : polygon) : polygon :=
  if polygon_is_empty p then p
  else mkPolygon (map_ring f (exterior p)) (map (map_ring f) (interiors p)).

(** The geometry [transform] rebuilds when the function returns [f c] on
    every coordinate tuple [c]: every ring is closed by its constructor,
    and the empty members of a multi-polygon are left out. *)
Fixpoint map_geometry (f : coord -> coord) (g : geometry) : geometry :=
  match g with
  | Point c => Point (option_map f c)
  | LineString cs => LineString (map f cs)
  | Polygon p => Polygon (map_polygon f p)
  | MultiPoint ps => MultiPoint (map f ps)
  | MultiLineString ls => MultiLineString (map (map f) ls)
  | MultiPolygon ps =>
      if forallb polygon_is_empty ps then g
      else multipolygon (map (map_polygon f) ps)
  | GeometryCollection gs => GeometryCollection (map (map_geometry f) gs)
  end.

(** The geometries [transform] can rebuild: no multi-line with coordinates
    holds an empty line, and no ring has just one or two coordinate tuples,
    at any depth. *)
Definition ring_sized (r : ring) : bool :=
  match r with
  | [_] | [_; _] => false
  | _ => true
  end.

Definition polygon_rebuildable (p : polygon) : bool :=
  polygon_is_empty p || forallb ring_sized (polygon_rings p).

Fixpoint rebuildable (g : geometry) : bool :=
  is_empty g
  || match g with
     | Polygon p => polygon_rebuildable p
     | MultiLineString ls => negb (existsb coords_is_empty ls)
     | MultiPolygon ps => forallb polygon_rebuildable ps
     | GeometryCollection gs => forallb rebuildable gs
     | _ => true
     end.

(** The rings of the polygons that have coordinates. *)
Definition polygon_solid_rings (p : polygon) : list ring :=
  if polygon_is_empty p then [] else polygon_rings p.

Fixpoint solid_rings (g : geometry) : list ring :=
  match g with
  | Polygon p => polygon_solid_rings p
  | MultiPolygon ps => flat_map polygon_solid_rings ps
  | GeometryCollection gs => flat_map solid_rings gs
  | _ => []
  end.

(** The rings of the data model: at least four coordinate tuples, the
    first equal to the last. *)
Definition valid_ring (r : ring) : bool :=
  (4 <=? length r)%nat && ring_closed r.

Definition valid_rings (geom : option geometry) : bool :=
  match geom with
  | None => true
  | Some g => forallb valid_ring (solid_rings g)
  end.


(** The coordinate tuples [transform] visits. *)
Definition polygon_coords (p : polygon) : list coord :=
  if polygon_is_empty p then [] else concat (polygon_rings p).

Fixpoint coords_of (g : geometry) : list coord :=
  match g with
  | Point None => []
  | Point (Some c) => [c]
  | LineString cs | MultiPoint cs => cs
  | Polygon p => polygon_coords p
  | MultiLineString ls => concat ls
  | MultiPolygon ps => flat_map polygon_coords ps
  | GeometryCollection gs => flat_map coords_of gs
  end.

(** The geometries in which no multi-line and no multi-polygon has an
    empty part: they are rebuilt member for member. *)
Fixpoint no_empty_part (g : geometry) : bool :=
  match g with
  | MultiLineString ls => negb (existsb coords_is_empty ls)
  | MultiPolygon ps => negb (existsb polygon_is_empty ps)
  | GeometryCollection gs => forallb no_empty_part gs
  | _ => true
  end.

(** The ordinates that are binary64 numbers: a finite one is written with
    a 53-bit mantissa, or is subnormal. *)
Definition binary64 (x : float) : bool :=
  match x with
  | FFin _ m e =>
      ((2 ^ 52 <=? Z.pos m) && (Z.pos m <? 2 ^ 53)
       && (emin <=? e) && (e <=? emax))
      || ((Z.pos m <? 2 ^ 52) && (e =? emin))
  | _ => true
  end.

Definition coord_binary64 (c : coord) : bool :=
  match c with
  | XY x y => binary64 x && binary64 y
  | XYZ x y z => binary64 x && binary64 y && binary64 z
  end.

Definition all_binary64 (geom : option geometry) : bool :=
  match geom with
  | None => true
  | Some g => forallb coord_binary64 (coords_of g)
  end.

(** The geometries of the data model: binary64 ordinates, and rings of at
    least four coordinate tuples, the first equal to the last. *)
Definition well_formed (geom : option geometry) : bool :=
  all_binary64 geom && valid_rings geom.

Definition option_rebuildable (geom : option geometry) : bool :=
  match geom with
  | None => true
  | Some g => rebuildable g
  end.

(** The precisions of the statements on [round_coordinates]: well inside
    what the format specification and [float] accept. *)
Definition precision_limit : Z := 1000.

(** ** Sample geometries *)

(** [float(z)] for a Python integer [z]. *)
Definition float_of_int (z : Z) : float := nearest (z <? 0) (Z.abs z) 1.

Definition pt (x y : Z) : coord := XY (float_of_int x) (float_of_int y).

(** Axis-parallel squares, wound clockwise and counter clockwise. *)
Definition square_cw (x y side : Z) : ring :=
  [pt x y; pt x (y + side); pt (x + side) (y + side); pt (x + side) y; pt x y].
Definition square_ccw (x y side : Z) : ring :=
  [pt x y; pt (x + side) y; pt (x + side) (y + side); pt x (y + side); pt x y].

(** The binary64 numbers written 106.8, 106.9, -6.2 and -6.1. *)
Definition f106_8 : float := FFin false 7515381878174515 (-46).
Definition f106_9 : float := FFin false 7522418752592282 (-46).
Definition fm6_2 : float := FFin true 6980579422424269 (-50).
Definition fm6_1 : float := FFin true 6867989431740006 (-50).

(** The clockwise ring of the CSV example, and its reversal. *)
Definition jakarta_cw : ring :=
  [XY f106_8 fm6_2; XY f106_8 fm6_1; XY f106_9 fm6_1; XY f106_9 fm6_2;
   XY f106_8 fm6_2].
Definition jakarta_ccw : ring :=
  [XY f106_8 fm6_2; XY f106_9 fm6_2; XY f106_9 fm6_1; XY f106_8 fm6_1;
   XY f106_8 fm6_2].

(** ** Vocabulary of the statements *)

(** The geometries the orientation audit looks into. *)
Definition is_polygonal (geom : option geometry) : bool :=
  match geom with
  | Some (Polygon _) | Some (MultiPolygon _) => true
  | _ => false
  end.



(** A multi-polygon whose first member is the empty polygon. *)
Definition multi_with_empty_member : geometry :=
  MultiPolygon [mkPolygon [] []; mkPolygon (square_cw 0 0 1) []].

(** A multi-polygon with a small clockwise member followed by a large
    counter clockwise one. *)
Definition mixed_winding : list polygon :=
  [mkPolygon (square_cw 0 0 1) []; mkPolygon (square_ccw 10 10 5) []].

Definition total_count (s : stats) : nat :=
  (ccw_count s + cw_count s + other_count s)%nat.

(** The records the audit does not look into. *)
Definition count_other (gdf : list (option geometry)) : nat :=
  length (filter (fun geom => negb (is_polygonal geom)) gdf).

(** ** Vocabulary of the rounding proofs *)

(** [2^k <= n / d], for positive [n] and [d] and any integer [k]. *)
Definition pow2_le (k n d : Z) : Prop :=
  if 0 <=? k then d * 2 ^ k <= n else d <= n * 2 ^ (- k).

(** Values are compared after scaling by [2^1074], which makes every
    binary64 number an integer. *)
Definition bias : Z := 1074.
Definition scale : Z := 2 ^ bias.

(** ** Text: numbers and well-known text

    [str(geometry)] is the well-known text of the geometry, written by the
    geometry library, which is not part of the source. *)

Definition text : Type := list ascii.

Definition is_digit (c : ascii) : bool :=
  let n := nat_of_ascii c in (48 <=? n)%nat && (n <=? 57)%nat.

Definition digit_char (d : Z) : ascii := ascii_of_nat (48 + Z.to_nat d).

(** The decimal digits of a non-negative integer, without leading zeros. *)
Fixpoint int_digits (fuel : nat) (n : Z) : text :=
  match fuel with
  | O => [digit_char (n mod 10)]
  | S fuel' =>
      if n <? 10 then [digit_char n]
      else int_digits fuel' (n / 10) ++ [digit_char (n mod 10)]
  end.

(** The last [k] decimal digits of an integer, zeros included. *)
Fixpoint frac_digits (k : nat) (n : Z) : text :=
  match k with
  | O => []
  | S k' => frac_digits k' (n / 10) ++ [digit_char (n mod 10)]
  end.

Definition float_same (x y : float) : bool :=
  match x, y with
  | FNan, FNan => true
  | FInf a, FInf b | FZero a, FZero b => Bool.eqb a b
  | FFin a m e, FFin b n f => Bool.eqb a b && Pos.eqb m n && Z.eqb e f
  | _, _ => false
  end.

(** The least number of fractional digits, counted from [k], with which
    the decimal text of [x] reads back as [x]. *)
Fixpoint shortest_places (fuel : nat) (k : nat) (x : float) : nat :=
  match fuel with
  | O => k
  | S fuel' =>
      if float_same (round_value (Z.of_nat k) x) x then k
      else shortest_places fuel' (S k) x
  end.

(** Every finite binary64 number is a decimal with at most 1074 fractional
    digits. *)
Definition places (x : float) : nat := shortest_places 1074 0 x.

Definition sign_text (neg : bool) : text :=
  if neg then ["-"%char] else [].

(** Modelled from the spec: the text of one ordinate in [str(geometry)] is
    not in the source; the specification takes it to be the shortest
    decimal representation of the stored value, here in positional notation
    and without a decimal point when there is no fractional digit. *)
Definition number_text (x : float) : text :=
  match x with
  | FNan => ["n"; "a"; "n"]%char
  | FInf neg => sign_text neg ++ ["i"; "n"; "f"]%char
  | _ =>
      let k := places x in
      match format_f (Z.of_nat k) x with
      | TDec neg n _ =>
          let whole := n / 10 ^ Z.of_nat k in
          sign_text neg
          ++ int_digits (Z.to_nat (Z.log2 whole)) whole
          ++ match k with
             | O => []
             | _ => "."%char :: frac_digits k n
             end
      | _ => []
      end
  end.

Definition lit (s : string) : text := list_ascii_of_string s.

(** [", ".join(parts)] *)
Fixpoint join (sep : text) (parts : list text) : text :=
  match parts with
  | [] => []
  | [a] => a
  | a :: rest => a ++ sep ++ join sep rest
  end.

Definition coord_text (c : coord) : text :=
  match c with
  | XY x y => number_text x ++ lit " " ++ number_text y
  | XYZ x y z =>
      number_text x ++ lit " " ++ number_text y ++ lit " " ++ number_text z
  end.

Definition paren (t : text) : text := lit "(" ++ t ++ lit ")".

Definition list_text {A : Type} (f : A -> text) (l : list A) : text :=
  match l with
  | [] => lit "EMPTY"
  | _ => paren (join (lit ", ") (map f l))
  end.

Definition coords_text (cs : list coord) : text := list_text coord_text cs.

Definition polygon_text (p : polygon) : text :=
  if polygon_is_empty p then lit "EMPTY"
  else list_text coords_text (polygon_rings p).

Definition coord_has_z (c : coord) : bool :=
  match c with XY _ _ => false | XYZ _ _ _ => true end.

Fixpoint has_z (g : geometry) : bool :=
  match g with
  | Point None => false
  | Point (Some c) => coord_has_z c
  | LineString cs | MultiPoint cs => existsb coord_has_z cs
  | Polygon p => existsb (existsb coord_has_z) (polygon_rings p)
  | MultiLineString ls => existsb (existsb coord_has_z) ls
  | MultiPolygon ps =>
      existsb (fun p => existsb (existsb coord_has_z) (polygon_rings p)) ps
  | GeometryCollection gs => existsb has_z gs
  end.

Definition tagged (name : string) (z : bool) (body : text) : text :=
  lit name ++ lit " " ++ (if z then lit "Z " else []) ++ body.

(** Modelled from the spec: the well-known text of a geometry, the
    "canonical coordinate text representation" of the specification.  The
    writer belongs to the geometry library; the layout is the one of the
    OGC standard. *)
Fixpoint wkt (g : geometry) : text :=
  match g with
  | Point None => tagged "POINT" false (lit "EMPTY")
  | Point (Some c) => tagged "POINT" (has_z g) (paren (coord_text c))
  | LineString cs => tagged "LINESTRING" (has_z g) (coords_text cs)
  | Polygon p => tagged "POLYGON" (has_z g) (polygon_text p)
  | MultiPoint ps =>
      tagged "MULTIPOINT" (has_z g)
        (list_text (fun c => paren (coord_text c)) ps)
  | MultiLineString ls =>
      tagged "MULTILINESTRING" (has_z g) (list_text coords_text ls)
  | MultiPolygon ps =>
      tagged "MULTIPOLYGON" (has_z g) (list_text polygon_text ps)
  | GeometryCollection gs =>
      tagged "GEOMETRYCOLLECTION" (has_z g) (list_text wkt gs)
  end.

(** ** The library

    Two functions of the geometry library are called by the script and are
    not determined by the source, which pins no release of the library.

    [fix_cw_to_ccw] hands every polygon to [shapely.geometry.polygon.orient],
    and the releases differ on degenerate polygons: shapely 2.0 compares a
    signed area computed by numpy with zero and raises [IndexError] on a
    polygon without coordinates, later releases let GEOS decide the winding
    and return an empty polygon as it is.

    [check_coordinate_precision] reads [str(geometry)], the well-known text
    of the geometry; how many digits the writer gives a number, and from
    which magnitude it turns to scientific notation, is its own business.

    The development takes both as parameters; what a statement needs of
    them is said in the statement. *)
Class Shapely : Type := {
  orient : polygon -> result polygon;
  str : geometry -> text
}.

(** An [orient] that keeps the shape of the polygons of the data model:
    given a polygon with valid rings, the polygon it returns has as many
    rings, each with as many coordinate tuples as before, and is empty only
    when the argument is.  The statements that count vertices and rings
    after the fix ask this of the library. *)
Definition keeps_shape (o : polygon -> result polygon) : Prop :=
  forall p p',
    forallb valid_ring (polygon_solid_rings p) = true ->
    o p = Ok p' ->
    polygon_is_empty p' = polygon_is_empty p
    /\ length (exterior p') = length (exterior p)
    /\ map (@length coord) (interiors p') = map (@length coord) (interiors p).

(** A sample [orient], after the one of shapely 2.0 with [sign = 1.0], the
    areas taken exactly: the exterior is kept when its signed area is
    non-negative and reversed otherwise, each hole is kept when its signed
    area is non-positive and reversed otherwise; a ring without a second
    coordinate tuple raises [IndexError]. *)
Definition orient_exterior (r : ring) : result ring :=
  a <- signed_area r ;; Ok (if area_ge0 a then r else rev r).
Definition orient_interior (r : ring) : result ring :=
  a <- signed_area r ;; Ok (if area_le0 a then r else rev r).

Definition orient_by_area (p : polygon) : result polygon :=
  shell <- orient_exterior (exterior p) ;;
  holes <- mapM orient_interior (interiors p) ;;
  Ok (mkPolygon shell holes).

(** The closed examples of the development are computed with this sample
    library: the [orient] above and the positional writer [wkt].  The
    theorems hold for every library. *)
#[export] Instance sample_library : Shapely := {|
  orient := orient_by_area;
  str := wkt
|}.

(** ** [fix_cw_to_ccw] *)

(** The messages shown by [st.error], oldest first. *)
Definition error_log : Type := list exn.

Section OrientationFix.
Context {library : Shapely}.

(** The body of the [try] block. *)
Definition fix_cw_to_ccw_try (geom : option geometry)
  : result (option geometry) :=
  match geom with
  | None => Ok geom
  | Some g =>
      if is_empty g then Ok geom
      else
        match g with
        | Polygon p => p' <- orient p ;; Ok (Some (Polygon p'))
        | MultiPolygon ps =>
            fixed_polygons <- mapM orient ps ;;
            Ok (Some (multipolygon fixed_polygons))
        | _ => Ok geom
        end
  end.

(** The whole function: an exception of the body is reported and the
    argument is returned. *)
Definition fix_cw_to_ccw (geom : option geometry) (log : error_log)
  : option geometry * error_log :=
  match fix_cw_to_ccw_try geom with
  | Ok g => (g, log)
  | Raise e => (geom, log ++ [e])
  end.

(** The exception that reaches the [except] clause, if there is one: that
    of [orient] on the polygon, or on the first member of the multi-polygon
    for which it raises. *)
Fixpoint first_failure (ps : list polygon) : option exn :=
  match ps with
  | [] => None
  | p :: ps' =>
      match orient p with
      | Raise e => Some e
      | Ok _ => first_failure ps'
      end
  end.

Definition orientation_failure (geom : option geometry) : option exn :=
  match geom with
  | Some (Polygon p) =>
      if polygon_is_empty p then None else first_failure [p]
  | Some (MultiPolygon ps) =>
      if forallb polygon_is_empty ps then None else first_failure ps
  | _ => None
  end.

End OrientationFix.

(** ** [re.findall(r"(-?\d+\.\d+)", s)]

    The pattern is matched in one pass.  A failed attempt never restarts
    inside the characters it has read: they are a sign, digits and a
    point, and none of them begins a match that reaches the character at
    which the attempt failed, other than that character itself. *)

Inductive scan_state : Type :=
| Idle
| Minus
| Whole (acc : text)
| Dot (acc : text)
| Frac (acc frac : text).

Definition is_dot (c : ascii) : bool := Ascii.eqb c ".".
Definition is_minus (c : ascii) : bool := Ascii.eqb c "-".

Definition start (c : ascii) : scan_state :=
  if is_digit c then Whole [c]
  else if is_minus c then Minus
  else Idle.

Definition step (st : scan_state) (c : ascii) : scan_state :=
  match st with
  | Idle => start c
  | Minus => if is_digit c then Whole ["-"%char; c] else start c
  | Whole acc =>
      if is_digit c then Whole (acc ++ [c])
      else if is_dot c then Dot acc
      else start c
  | Dot acc => if is_digit c then Frac acc [c] else start c
  | Frac acc frac => if is_digit c then Frac acc (frac ++ [c]) else start c
  end.

(** The match that ends when [c] is read, or with the text. *)
Definition flush (st : scan_state) : list text :=
  match st with
  | Frac acc frac => [acc ++ "."%char :: frac]
  | _ => []
  end.

Definition emit (st : scan_state) (c : ascii) : list text :=
  if is_digit c then [] else flush st.

Fixpoint findall_from (st : scan_state) (s : text) : list text :=
  match s with
  | [] => flush st
  | c :: s' => emit st c ++ findall_from (step st c) s'
  end.

Definition findall (s : text) : list text := findall_from Idle s.

(** [s.split(".")] *)
Fixpoint split_dot (s : text) : list text :=
  match s with
  | [] => [[]]
  | c :: s' =>
      if is_dot c then [] :: split_dot s'
      else match split_dot s' with
           | [] => [[c]]
           | a :: rest => (c :: a) :: rest
           end
  end.

(** [len(coord.split(".")[1]) > max_decimals]; every match has a point,
    so the index is in range. *)
Definition too_long (max_decimals : Z) (m : text) : bool :=
  max_decimals <? Z.of_nat (length (nth 1 (split_dot m) [])).

(** The last two lines of the function, on the text. *)
Definition flagged (wkt_string : text) (max_decimals : Z) : bool :=
  existsb (too_long max_decimals) (findall wkt_string).

Section PrecisionCheck.
Context {library : Shapely}.

(** [check_coordinate_precision(geometry, max_decimals)] *)
Definition check_coordinate_precision
    (geometry : option geometry) (max_decimals : Z) : bool :=
  match geometry with
  | None => false
  | Some g => flagged (str g) max_decimals
  end.

End PrecisionCheck.

(** ** Vocabulary of the scan *)

Definition all_digits (s : text) : bool := forallb is_digit s.

Definition no_dot (s : text) : bool := forallb (fun c => negb (is_dot c)) s.

(** ** The processing step

    [gdf['geometry'].apply(f)] calls [f] on each geometry of the column, in
    order; the sum of a column of booleans counts the [True] entries. *)

Definition round_frame (gdf : list (option geometry)) (precision : Z)
  : result (list (option geometry)) :=
  mapM (fun geom => round_coordinates geom precision) gdf.

Section Processing.
Context {library : Shapely}.

Definition high_precision_count (gdf : list (option geometry))
    (precision : Z) : nat :=
  length (filter (fun g => check_coordinate_precision g precision) gdf).

Fixpoint fix_frame (gdf : list (option geometry)) (log : error_log)
  : list (option geometry) * error_log :=
  match gdf with
  | [] => ([], log)
  | geom :: rest =>
      let (fixed, log') := fix_cw_to_ccw geom log in
      let (rest', log'') := fix_frame rest log' in
      (fixed :: rest', log'')
  end.

(** Rounding, then the orientation fix when the box is ticked. *)
Definition process (gdf : list (option geometry)) (precision : Z)
    (fix_orientation : bool) (log : error_log)
  : result (list (option geometry) * error_log) :=
  rounded <- round_frame gdf precision ;;
  Ok (if fix_orientation then fix_frame rounded log else (rounded, log)).

End Processing.

(** The shape of a match of the pattern: an optional sign, digits, a
    point, digits. *)
Definition decimal_token (m : text) : Prop :=
  exists sign whole frac,
    m = sign ++ whole ++ "."%char :: frac
    /\ (sign = [] \/ sign = ["-"%char])
    /\ all_digits whole = true /\ whole <> []
    /\ all_digits frac = true /\ frac <> [].

(** What the scan has read when it is in a given state. *)
Definition signed_digits (acc : text) : Prop :=
  exists sign whole,
    acc = sign ++ whole
    /\ (sign = [] \/ sign = ["-"%char])
    /\ all_digits whole = true /\ whole <> [].

Definition reads (st : scan_state) (seen : text) : Prop :=
  match st with
  | Idle => True
  | Minus => exists before, seen = before ++ ["-"%char]
  | Whole acc => signed_digits acc /\ exists before, seen = before ++ acc
  | Dot acc =>
      signed_digits acc /\ exists before, seen = before ++ acc ++ ["."%char]
  | Frac acc frac =>
      signed_digits acc /\ all_digits frac = true /\ frac <> []
      /\ exists before, seen = before ++ acc ++ "."%char :: frac
  end.

(** ** Sample data *)

(** Scenario B of the specification: the point (106.123456789,
    -6.987654321). *)
Definition scenario_point : geometry :=
  Point (Some (XY (FFin false 7467774382034521 (-46))
                  (FFin true 7867399349062359 (-50)))).

Definition sample_frame : list (option geometry) :=
  [Some scenario_point; None; Some (Polygon (mkPolygon jakarta_cw []))].

(** ** Vocabulary of the processing *)

(** Two geometries of the same type, memberless multi-polygons
    corresponding to memberless ones. *)
Definition same_class (geom geom' : option geometry) : Prop :=
  tag_of geom' = tag_of geom
  /\ (geom' = Some (MultiPolygon []) -> geom = Some (MultiPolygon [])).

(** A clockwise polygon, a missing geometry and a point. *)
Definition clockwise_frame : list (option geometry) :=
  [Some (Polygon (mkPolygon jakarta_cw [])); None; Some scenario_point].

(** ** File names

    The name of the uploaded file decides how it is read, and the name of
    the download is built from it.  Characters are taken from Latin-1. *)

(** [c.lower()] *)
Definition lower_char (c : ascii) : ascii :=
  let n := nat_of_ascii c in
  if ((65 <=? n) && (n <=? 90)
      || (192 <=? n) && (n <=? 222) && negb (n =? 215))%nat
  then ascii_of_nat (n + 32)
  else c.

(** [s.lower()] *)
Definition lower (s : text) : text := map lower_char s.

Fixpoint text_eqb (a b : text) : bool :=
  match a, b with
  | [], [] => true
  | x :: a', y :: b' => Ascii.eqb x y && text_eqb a' b'
  | _, _ => false
  end.

Inductive file_type : Type := GeoJSON | CSV | Shapefile.

(** The chain of comparisons on [file_extension]; [None] stands for the
    branch that shows "Unsupported file format" and stops the script. *)
Definition extension_type (file_extension : text) : option file_type :=
  if text_eqb file_extension (lit "geojson") then Some GeoJSON
  else if text_eqb file_extension (lit "csv") then Some CSV
  else if text_eqb file_extension (lit "zip") then Some Shapefile
  else None.

(** [name.split('.')[-1]]; the list of parts is never empty. *)
Definition last_part (name : text) : text := last (split_dot name) [].

Definition detect_file_type (name : text) : option file_type :=
  let file_extension := lower (last_part name) in
  extension_type file_extension.

(** [s.rsplit('.', 1)]: the text before and after the last point, when
    there is one. *)
Fixpoint rsplit_dot (s : text) : option (text * text) :=
  match s with
  | [] => None
  | c :: s' =>
      match rsplit_dot s' with
      | Some (before, after) => Some (c :: before, after)
      | None => if is_dot c then Some ([], s') else None
      end
  end.

(** [name.rsplit('.', 1)[0]] *)
Definition original_name (name : text) : text :=
  match rsplit_dot name with
  | Some (before, _) => before
  | None => name
  end.

Inductive output_format : Type := OutGeoJSON | OutShapefile | OutGeoPackage.

Definition output_extension (f : output_format) : text :=
  match f with
  | OutGeoJSON => lit "geojson"
  | OutShapefile => lit "zip"
  | OutGeoPackage => lit "gpkg"
  end.

(** [str(n)] for an integer. *)
Definition str_int (n : Z) : text :=
  if n <? 0 then "-"%char :: int_digits (Z.to_nat (Z.log2 (- n))) (- n)
  else int_digits (Z.to_nat (Z.log2 n)) n.

Definition output_filename (name : text) (precision : Z)
    (fix_orientation : bool) (f : output_format) : text :=
  original_name name ++ lit "_fixed_" ++ str_int precision ++ lit "dp"
  ++ (if fix_orientation then lit "_ccw" else [])
  ++ lit "." ++ output_extension f.

(** ** Vocabulary of the rounding properties *)

(** An ordinate read by [float] from a decimal text with [p] fractional
    digits, or one that is not a finite number. *)
Definition decimal_ordinate (p : Z) (x : float) : Prop :=
  is_finite x = false \/ exists s n, x = float_of_text (TDec s n p).

Definition decimal_coord (p : Z) (c : coord) : Prop :=
  match c with
  | XY x y => decimal_ordinate p x /\ decimal_ordinate p y
  | XYZ x y z =>
      decimal_ordinate p x /\ decimal_ordinate p y /\ decimal_ordinate p z
  end.

(** The sign of a float; a NaN has none. *)
Definition sign_bit (x : float) : option bool :=
  match x with
  | FNan => None
  | FInf s | FZero s | FFin s _ _ => Some s
  end.

(** The value of a finite float, without its sign, in units of [2^-1074];
    every binary64 number is a whole number of them. *)
Definition scaled_value (x : float) : Z :=
  match x with
  | FFin _ m e => Z.pos m * 2 ^ (e + bias)
  | _ => 0
  end.

(** The unit in the last place of a finite float, in the same units. *)
Definition scaled_ulp (x : float) : Z :=
  match x with
  | FFin _ _ e => 2 ^ (e + bias)
  | _ => 0
  end.
(** * Properties *)

(** ** Lists, results and the induction principle *)

(** An induction principle that reaches the members of a collection. *)
Lemma geometry_ind' (P : geometry -> Prop) :
  (forall c, P (Point c)) ->
  (forall cs, P (LineString cs)) ->
  (forall p, P (Polygon p)) ->
  (forall ps, P (MultiPoint ps)) ->
  (forall ls, P (MultiLineString ls)) ->
  (forall ps, P (MultiPolygon ps)) ->
  (forall gs, Forall P gs -> P (GeometryCollection gs)) ->
  forall g, P g.
Proof.
  intros HP HL HPo HMP HML HMPo HGC.
  fix IH 1. intros g. destruct g as [c|cs|p|ps|ls|ps|gs].
  - apply HP.
  - apply HL.
  - apply HPo.
  - apply HMP.
  - apply HML.
  - apply HMPo.
  - apply HGC. induction gs as [|h t IHt]; constructor.
    + apply IH.
    + exact IHt.
Qed.

Lemma mapM_total {A B : Type} (f : A -> result B) (h : A -> B) (l : list A) :
  (forall a, In a l -> f a = Ok (h a)) -> mapM f l = Ok (map h l).
Proof.
  induction l as [|a l IH]; intros Hf; simpl.
  - reflexivity.
  - rewrite (Hf a) by (left; reflexivity). simpl.
    rewrite IH by (intros b Hb; apply Hf; right; exact Hb). reflexivity.
Qed.

Lemma map_id_on {A : Type} (h : A -> A) (l : list A) :
  (forall a, In a l -> h a = a) -> map h l = l.
Proof.
  induction l as [|a l IH]; intros Hh; simpl.
  - reflexivity.
  - rewrite Hh by (left; reflexivity).
    rewrite IH by (intros b Hb; apply Hh; right; exact Hb). reflexivity.
Qed.


(** ** [transform] *)

Lemma forallb_map_id {A : Type} (e : A -> bool) (h : A -> A) (l : list A) :
  (forall a, e a = true -> h a = a) -> forallb e l = true -> map h l = l.
Proof.
  intros Hh Hl. apply map_id_on. intros a Ha.
  apply Hh. rewrite forallb_forall in Hl. exact (Hl a Ha).
Qed.

(** An empty geometry is rebuilt as it is. *)
Lemma map_geometry_empty (f : coord -> coord) (g : geometry) :
  is_empty g = true -> map_geometry f g = g.
Proof.
  induction g as [c|cs|p|ps|ls|ps|gs IH] using geometry_ind';
    cbn [map_geometry is_empty]; intros He.
  - destruct c; [discriminate | reflexivity].
  - destruct cs; [reflexivity | discriminate].
  - unfold map_polygon. now rewrite He.
  - destruct ps; [reflexivity | discriminate].
  - f_equal. apply forallb_map_id with (e := coords_is_empty); [|exact He].
    intros [|c cs] Hc; [reflexivity | discriminate].
  - now rewrite He.
  - f_equal. apply map_id_on. intros h Hh.
    rewrite Forall_forall in IH. apply (IH h Hh).
    rewrite forallb_forall in He. exact (He h Hh).
Qed.

Lemma mapM_sound {A B : Type} (f : A -> result B) (h : A -> B)
      (l : list A) (l' : list B) :
  (forall a b, In a l -> f a = Ok b -> b = h a) ->
  mapM f l = Ok l' -> l' = map h l.
Proof.
  revert l'. induction l as [|a l IH]; simpl; intros l' Hf H.
  - now injection H as <-.
  - destruct (f a) as [b|e] eqn:Hb; simpl in H; [|discriminate].
    destruct (mapM f l) as [bs|e] eqn:Hbs; simpl in H; [|discriminate].
    injection H as <-. f_equal.
    + apply Hf; [now left | exact Hb].
    + apply IH; [|reflexivity]. intros a' b' Ha'. apply Hf. now right.
Qed.

(** The loop over the members of a collection, as [transform] writes it. *)
Lemma parts_mapM (func : coord -> result coord) (gs : list geometry) :
  (fix parts (l : list geometry) : result (list geometry) :=
     match l with
     | [] => Ok []
     | h :: t => h' <- transform func h ;; t' <- parts t ;; Ok (h' :: t')
     end) gs
  = mapM (transform func) gs.
Proof. induction gs as [|h t IH]; simpl; [reflexivity | now rewrite IH]. Qed.

Lemma existsb_empty_map (f : coord -> coord) (ls : list (list coord)) :
  existsb coords_is_empty (map (map f) ls) = existsb coords_is_empty ls.
Proof.
  induction ls as [|cs ls IH]; simpl; [reflexivity|].
  rewrite IH. now destruct cs.
Qed.

(** *** Rings through their constructor *)

Lemma linearring_sound (cs : list coord) (r : ring) :
  linearring cs = Ok r -> r = close_ring cs.
Proof.
  unfold linearring. destruct (_ || _); [|discriminate].
  intros H. now injection H as <-.
Qed.

Lemma linearring_total (cs : list coord) :
  ring_sized cs = true -> linearring cs = Ok (close_ring cs).
Proof.
  unfold linearring.
  destruct cs as [|a [|b [|c [|d cs]]]]; try discriminate; intros _;
    try reflexivity.
  cbn [coords_is_empty orb close_ring].
  destruct (needs_closing _); reflexivity.
Qed.

Lemma ring_sized_map (f : coord -> coord) (r : ring) :
  ring_sized (map f r) = ring_sized r.
Proof. destruct r as [|a [|b [|c r]]]; reflexivity. Qed.

(** A valid ring is left as it is. *)
Lemma close_ring_valid (r : ring) : valid_ring r = true -> close_ring r = r.
Proof.
  unfold valid_ring. intros H. apply andb_prop in H as [Hlen Hc].
  destruct r as [|a [|b [|c [|d r]]]]; try (cbn in Hlen; discriminate Hlen).
  unfold close_ring, needs_closing. unfold ring_closed in Hc.
  rewrite Hc. reflexivity.
Qed.

(** *** What [transform] returns, when it returns *)

Section TransformSound.
Variable func : coord -> result coord.
Variable f : coord -> coord.
Hypothesis func_sound : forall c c', func c = Ok c' -> c' = f c.

Lemma mapM_func_sound (cs cs' : list coord) :
  mapM func cs = Ok cs' -> cs' = map f cs.
Proof. apply mapM_sound. intros a b _. apply func_sound. Qed.

Lemma transform_line_sound (cs cs' : list coord) :
  transform_line func cs = Ok cs' -> cs' = map f cs.
Proof.
  unfold transform_line. destruct cs as [|c cs]; cbn [coords_is_empty].
  - intros H. now injection H as <-.
  - apply mapM_func_sound.
Qed.

Lemma transform_ring_sound (r r' : ring) :
  transform_ring func r = Ok r' -> r' = map_ring f r.
Proof.
  unfold transform_ring, map_ring.
  destruct (mapM func r) as [cs|e] eqn:Hc; cbn [bind]; [|discriminate].
  intros H. apply linearring_sound in H. subst r'.
  now rewrite (mapM_func_sound _ _ Hc).
Qed.

Lemma transform_polygon_sound (p p' : polygon) :
  transform_polygon func p = Ok p' -> p' = map_polygon f p.
Proof.
  unfold transform_polygon, map_polygon.
  destruct (polygon_is_empty p).
  - intros H. now injection H as <-.
  - destruct (transform_ring func (exterior p)) as [shell|e] eqn:Hs; simpl;
      [|discriminate].
    destruct (mapM (transform_ring func) (interiors p)) as [holes|e] eqn:Hh;
      simpl; [|discriminate].
    intros H. injection H as <-. f_equal.
    + now apply transform_ring_sound.
    + revert Hh. apply mapM_sound. intros a b _. apply transform_ring_sound.
Qed.

Lemma transform_sound (g g' : geometry) :
  transform func g = Ok g' -> g' = map_geometry f g.
Proof.
  revert g'.
  induction g as [c|cs|p|ps|ls|ps|gs IH] using geometry_ind'; intros g'.
  - destruct c as [c|]; simpl.
    + destruct (func c) as [c'|e] eqn:Hc; simpl; [|discriminate].
      intros H. injection H as <-. now rewrite (func_sound c c' Hc).
    + intros H. now injection H as <-.
  - destruct cs as [|c cs].
    + simpl. intros H. now injection H as <-.
    + cbn [transform is_empty coords_is_empty map_geometry].
      destruct (mapM func (c :: cs)) as [cs'|e] eqn:Hc; simpl; [|discriminate].
      intros H. injection H as <-. now rewrite (mapM_func_sound _ _ Hc).
  - cbn [transform is_empty map_geometry].
    destruct (polygon_is_empty p) eqn:He.
    + intros H. injection H as <-. unfold map_polygon. now rewrite He.
    + destruct (transform_polygon func p) as [p'|e] eqn:Hp; simpl; [|discriminate].
      intros H. injection H as <-. now rewrite (transform_polygon_sound _ _ Hp).
  - destruct ps as [|c cs].
    + simpl. intros H. now injection H as <-.
    + cbn [transform is_empty coords_is_empty map_geometry].
      destruct (mapM func (c :: cs)) as [cs'|e] eqn:Hc; simpl; [|discriminate].
      intros H. injection H as <-. now rewrite (mapM_func_sound _ _ Hc).
  - cbn [transform is_empty].
    destruct (forallb coords_is_empty ls) eqn:He.
    + intros H. injection H as <-. symmetry.
      now apply map_geometry_empty.
    + destruct (mapM (transform_line func) ls) as [ls'|e] eqn:Hl; simpl;
        [|discriminate].
      unfold multilinestring.
      destruct (existsb coords_is_empty ls'); [discriminate|].
      intros H. injection H as <-. cbn [map_geometry]. f_equal.
      revert Hl. apply mapM_sound. intros a b _. apply transform_line_sound.
  - cbn [transform is_empty map_geometry].
    destruct (forallb polygon_is_empty ps) eqn:He.
    + intros H. now injection H as <-.
    + destruct (mapM (transform_polygon func) ps) as [ps'|e] eqn:Hl; simpl;
        [|discriminate].
      intros H. injection H as <-. f_equal.
      revert Hl. apply mapM_sound. intros a b _. apply transform_polygon_sound.
  - cbn [transform is_empty].
    destruct (forallb is_empty gs) eqn:He.
    + intros H. injection H as <-. symmetry. now apply map_geometry_empty.
    + rewrite parts_mapM.
      destruct (mapM (transform func) gs) as [gs'|e] eqn:Hl; simpl; [|discriminate].
      intros H. injection H as <-. cbn [map_geometry]. f_equal.
      revert Hl. apply mapM_sound. intros a b Ha.
      rewrite Forall_forall in IH. now apply IH.
Qed.
End TransformSound.

(** *** When [transform] returns *)

Section TransformTotal.
Variable func : coord -> result coord.
Variable f : coord -> coord.

Lemma transform_line_total (cs : list coord) :
  (forall c, In c cs -> func c = Ok (f c)) ->
  transform_line func cs = Ok (map f cs).
Proof.
  intros Hf. unfold transform_line. destruct cs as [|c cs]; [reflexivity|].
  cbn [coords_is_empty]. now apply mapM_total.
Qed.

Lemma transform_ring_total (r : ring) :
  (forall c, In c r -> func c = Ok (f c)) -> ring_sized r = true ->
  transform_ring func r = Ok (map_ring f r).
Proof.
  intros Hf Hs. unfold transform_ring, map_ring.
  rewrite (mapM_total func f r Hf). cbn [bind].
  apply linearring_total. now rewrite ring_sized_map.
Qed.

Lemma transform_polygon_total (p : polygon) :
  (forall c, In c (polygon_coords p) -> func c = Ok (f c)) ->
  polygon_rebuildable p = true ->
  transform_polygon func p = Ok (map_polygon f p).
Proof.
  unfold transform_polygon, map_polygon, polygon_coords, polygon_rebuildable,
    polygon_rings.
  destruct (polygon_is_empty p); [reflexivity|].
  cbn [concat orb forallb]. intros Hf Hs. apply andb_prop in Hs as [Hx Hi].
  rewrite (transform_ring_total (exterior p)); [|
    intros c Hc; apply Hf; apply in_or_app; now left | exact Hx].
  cbn [bind].
  rewrite (mapM_total (transform_ring func) (map_ring f) (interiors p));
    [reflexivity|].
  intros r Hr. apply transform_ring_total.
  - intros c Hc. apply Hf. apply in_or_app. right. apply in_concat. eauto.
  - rewrite forallb_forall in Hi. now apply Hi.
Qed.

(** When the function returns on every coordinate tuple that is visited,
    a geometry the library can rebuild is rebuilt. *)
Lemma transform_total (g : geometry) :
  (forall c, In c (coords_of g) -> func c = Ok (f c)) ->
  rebuildable g = true ->
  transform func g = Ok (map_geometry f g).
Proof.
  induction g as [c|cs|p|ps|ls|ps|gs IH] using geometry_ind'; intros Hf Hr.
  - destruct c as [c|]; simpl; [|reflexivity].
    rewrite Hf by (now left). reflexivity.
  - destruct cs as [|c cs]; [reflexivity|].
    cbn [transform is_empty coords_is_empty map_geometry].
    now rewrite (mapM_total _ f).
  - cbn [transform is_empty rebuildable map_geometry] in *.
    destruct (polygon_is_empty p) eqn:He.
    + unfold map_polygon. now rewrite He.
    + cbn [orb] in Hr. now rewrite transform_polygon_total.
  - destruct ps as [|c cs]; [reflexivity|].
    cbn [transform is_empty coords_is_empty map_geometry].
    now rewrite (mapM_total _ f).
  - cbn [transform is_empty rebuildable] in *.
    destruct (forallb coords_is_empty ls) eqn:He; cbn [orb] in Hr.
    + now rewrite map_geometry_empty.
    + rewrite (mapM_total _ (map f)).
      2:{ intros cs Hcs. apply transform_line_total. intros c Hc.
          apply Hf. cbn [coords_of]. apply in_concat. eauto. }
      simpl. unfold multilinestring. rewrite existsb_empty_map.
      apply negb_true_iff in Hr. now rewrite Hr.
  - cbn [transform is_empty rebuildable map_geometry] in *.
    destruct (forallb polygon_is_empty ps) eqn:He; [reflexivity|].
    cbn [orb] in Hr. rewrite forallb_forall in Hr.
    rewrite (mapM_total _ (map_polygon f)); [reflexivity|].
    intros p Hp. apply transform_polygon_total; [|now apply Hr].
    intros c Hc. apply Hf. cbn [coords_of]. apply in_flat_map. eauto.
  - cbn [transform is_empty rebuildable] in *.
    destruct (forallb is_empty gs) eqn:He; cbn [orb] in Hr.
    + now rewrite map_geometry_empty.
    + rewrite parts_mapM. rewrite forallb_forall in Hr.
      rewrite (mapM_total _ (map_geometry f)); [reflexivity|].
      intros h Hh. rewrite Forall_forall in IH. apply (IH h Hh).
      * intros c Hc. apply Hf. cbn [coords_of]. apply in_flat_map. eauto.
      * now apply Hr.
Qed.

(** A multi-line that holds coordinates and an empty line is refused. *)
Lemma transform_empty_part (ls : list (list coord)) :
  (forall c, In c (concat ls) -> func c = Ok (f c)) ->
  forallb coords_is_empty ls = false ->
  existsb coords_is_empty ls = true ->
  transform func (MultiLineString ls) = Raise EmptyPartError.
Proof.
  intros Hf He Hex. cbn [transform is_empty]. rewrite He.
  rewrite (mapM_total _ (map f)).
  2:{ intros cs Hcs. apply transform_line_total. intros c Hc.
      apply Hf. apply in_concat. eauto. }
  cbn [bind]. unfold multilinestring. now rewrite existsb_empty_map, Hex.
Qed.
End TransformTotal.

(** *** A function that raises on every coordinate tuple *)

Section TransformRaises.
Variable func : coord -> result coord.
Variable e : exn.
Hypothesis func_raises : forall c, func c = Raise e.



End TransformRaises.

(** ** The shape of a rebuilt geometry *)

Lemma mapM_Forall2 {A B : Type} (f : A -> result B) (l : list A) (l' : list B) :
  mapM f l = Ok l' -> Forall2 (fun a b => f a = Ok b) l l'.
Proof.
  revert l'. induction l as [|a l IH]; simpl; intros l' H.
  - injection H as <-. constructor.
  - destruct (f a) as [b|e] eqn:Hb; simpl in H; [|discriminate].
    destruct (mapM f l) as [bs|e] eqn:Hbs; simpl in H; [|discriminate].
    injection H as <-. constructor; [exact Hb | now apply IH].
Qed.

Lemma map_polygon_is_empty (f : coord -> coord) (p : polygon) :
  polygon_is_empty (map_polygon f p) = polygon_is_empty p.
Proof.
  unfold map_polygon. destruct (polygon_is_empty p) eqn:He; [exact He|].
  unfold polygon_is_empty in *. cbn [exterior].
  destruct (exterior p) as [|c cs]; [discriminate|].
  unfold map_ring, close_ring. cbn [map].
  destruct (needs_closing _); reflexivity.
Qed.

Lemma map_geometry_type (f : coord -> coord) (g : geometry) :
  geom_type (map_geometry f g) = geom_type g.
Proof.
  destruct g; try reflexivity.
  cbn [map_geometry]. now destruct (forallb polygon_is_empty ps).
Qed.




Lemma last_map {A B : Type} (f : A -> B) (l : list A) (d : A) :
  last (map f l) (f d) = f (last l d).
Proof.
  induction l as [|a l IH]; [reflexivity|].
  destruct l; [reflexivity|]. exact IH.
Qed.

Lemma coord_eqb_left (a b : coord) :
  coord_eqb a b = true -> coord_eqb a a = true.
Proof.
  assert (H : forall x y, feqb x y = true -> feqb x x = true).
  { intros [|s|s|s m e] [|t|t|t n k]; simpl; try discriminate; intros H;
      try reflexivity.
    - apply Bool.eqb_reflx.
    - now rewrite Bool.eqb_reflx, Pos.eqb_refl, Z.eqb_refl. }
  destruct a, b; simpl; try discriminate; intros Hab;
    repeat (apply andb_prop in Hab as [Hab ?]);
    repeat (apply andb_true_intro; split); eauto.
Qed.

(** *** A function that keeps equal tuples equal *)

Section MapValid.
Variable f : coord -> coord.
Hypothesis f_eqb :
  forall a b, coord_eqb a b = true -> coord_eqb (f a) (f b) = true.

Lemma ring_closed_map (r : ring) :
  ring_closed r = true -> ring_closed (map f r) = true.
Proof.
  destruct r as [|c r]; [reflexivity|].
  intros H.
  change (coord_eqb (f c) (last (map f (c :: r)) (f c)) = true).
  rewrite last_map. apply f_eqb. exact H.
Qed.

(** A closed ring is closed when it is rebuilt, with or without a tuple
    added. *)
Lemma ring_closed_map_ring (r : ring) :
  ring_closed r = true -> ring_closed (map_ring f r) = true.
Proof.
  intros H. unfold map_ring, close_ring.
  destruct r as [|c r]; [reflexivity|]. cbn [map].
  destruct (needs_closing (f c :: map f r)).
  - change (coord_eqb (f c) (last ((f c :: map f r) ++ [f c]) (f c)) = true).
    rewrite last_last. apply (coord_eqb_left (f c) (f (last (c :: r) c))).
    apply f_eqb. exact H.
  - apply (ring_closed_map (c :: r)). exact H.
Qed.

Lemma valid_ring_map (r : ring) :
  valid_ring r = true -> valid_ring (map f r) = true.
Proof.
  unfold valid_ring. intros H. apply andb_prop in H as [Hl Hc].
  now rewrite length_map, Hl, ring_closed_map.
Qed.

(** A valid ring is rebuilt tuple for tuple. *)
Lemma map_ring_valid (r : ring) :
  valid_ring r = true -> map_ring f r = map f r.
Proof.
  intros H. unfold map_ring. apply close_ring_valid. now apply valid_ring_map.
Qed.

Lemma map_polygon_valid (p : polygon) :
  forallb valid_ring (polygon_solid_rings p) = true ->
  map_polygon f p
  = if polygon_is_empty p then p
    else mkPolygon (map f (exterior p)) (map (map f) (interiors p)).
Proof.
  unfold map_polygon, polygon_solid_rings, polygon_rings.
  destruct (polygon_is_empty p); [reflexivity|].
  cbn [forallb]. intros H. apply andb_prop in H as [Hx Hi].
  rewrite (map_ring_valid _ Hx). f_equal.
  apply map_ext_in. intros r Hr. apply map_ring_valid.
  rewrite forallb_forall in Hi. now apply Hi.
Qed.



Lemma forallb_flat_map {A B : Type} (t : B -> bool) (h : A -> list B)
      (l : list A) (a : A) :
  forallb t (flat_map h l) = true -> In a l -> forallb t (h a) = true.
Proof.
  intros H Ha. apply forallb_forall. intros b Hb.
  rewrite forallb_forall in H. apply H. apply in_flat_map. eauto.
Qed.



Lemma solid_rings_map_polygon (p : polygon) (r : ring) :
  In r (polygon_solid_rings (map_polygon f p)) ->
  exists r0, In r0 (polygon_solid_rings p) /\ r = map_ring f r0.
Proof.
  unfold polygon_solid_rings. rewrite map_polygon_is_empty.
  unfold map_polygon. destruct (polygon_is_empty p); [intros []|].
  unfold polygon_rings. cbn [exterior interiors]. intros [<- | H].
  - exists (exterior p). split; [now left | reflexivity].
  - apply in_map_iff in H as (r0 & <- & H0). exists r0.
    split; [now right | reflexivity].
Qed.

Lemma solid_rings_map_geometry (g : geometry) (r : ring) :
  In r (solid_rings (map_geometry f g)) ->
  exists r0, In r0 (solid_rings g) /\ r = map_ring f r0.
Proof.
  induction g as [c|cs|p|ps|ls|ps|gs IH] using geometry_ind';
    cbn [map_geometry solid_rings]; try contradiction.
  - apply solid_rings_map_polygon.
  - destruct (forallb polygon_is_empty ps) eqn:He.
    + cbn [solid_rings]. intros H. apply in_flat_map in H as (q & Hq & Hr).
      rewrite forallb_forall in He. unfold polygon_solid_rings in Hr.
      rewrite (He q Hq) in Hr. destruct Hr.
    + unfold multipolygon. cbn [solid_rings].
      intros H. apply in_flat_map in H as (q & Hq & Hr).
      apply filter_In in Hq as [Hq _].
      apply in_map_iff in Hq as (p & <- & Hp).
      destruct (solid_rings_map_polygon p r Hr) as (r0 & H0 & Hor).
      exists r0. split; [|exact Hor]. apply in_flat_map. eauto.
  - intros H. apply in_flat_map in H as (q & Hq & Hr).
    apply in_map_iff in Hq as (h & <- & Hh).
    rewrite Forall_forall in IH.
    destruct (IH h Hh Hr) as (r0 & H0 & Hor).
    exists r0. split; [|exact Hor]. apply in_flat_map. eauto.
Qed.

(** Valid rings stay valid. *)
Lemma map_geometry_valid (g : geometry) :
  forallb valid_ring (solid_rings g) = true ->
  forallb valid_ring (solid_rings (map_geometry f g)) = true.
Proof.
  intros Hv. apply forallb_forall. intros r Hr.
  destruct (solid_rings_map_geometry g r Hr) as (r0 & H0 & ->).
  rewrite forallb_forall in Hv. specialize (Hv r0 H0).
  rewrite (map_ring_valid r0 Hv). now apply valid_ring_map.
Qed.

End MapValid.

(** ** The shape of a fixed geometry *)




(** The sample [orient] keeps the shape of every polygon. *)
Lemma orient_exterior_length (r r' : ring) :
  orient_exterior r = Ok r' -> length r' = length r.
Proof.
  unfold orient_exterior. destruct (signed_area r) as [a|e]; simpl; [|discriminate].
  intros H. injection H as <-. destruct (area_ge0 a); [reflexivity|].
  apply length_rev.
Qed.

Lemma orient_interior_length (r r' : ring) :
  orient_interior r = Ok r' -> length r' = length r.
Proof.
  unfold orient_interior. destruct (signed_area r) as [a|e]; simpl; [|discriminate].
  intros H. injection H as <-. destruct (area_le0 a); [reflexivity|].
  apply length_rev.
Qed.

Lemma orient_by_area_keeps_shape : keeps_shape orient_by_area.
Proof.
  intros p p' _. unfold orient_by_area.
  destruct (orient_exterior (exterior p)) as [shell|e] eqn:Hs; simpl; [|discriminate].
  destruct (mapM orient_interior (interiors p)) as [holes|e] eqn:Hh; simpl;
    [|discriminate].
  intros H. injection H as <-. cbn [exterior interiors].
  pose proof (orient_exterior_length _ _ Hs) as Hlen.
  split; [|split].
  - unfold polygon_is_empty. cbn [exterior].
    destruct shell, (exterior p); try reflexivity; discriminate.
  - exact Hlen.
  - apply mapM_Forall2 in Hh. clear Hs Hlen.
    induction Hh as [|a b l l' Hab _ IH]; [reflexivity|].
    simpl. now rewrite (orient_interior_length _ _ Hab), IH.
Qed.

Section FixShape.
Context {library : Shapely}.

Lemma fix_cw_to_ccw_try_tag (geom geom' : option geometry) :
  fix_cw_to_ccw_try geom = Ok geom' -> tag_of geom' = tag_of geom.
Proof.
  destruct geom as [g|]; cbn [fix_cw_to_ccw_try].
  2:{ intros H; now injection H as <-. }
  destruct (is_empty g).
  { intros H; now injection H as <-. }
  destruct g as [c|cs|p|ps|ls|ps|gs];
    try (intros H; injection H as <-; reflexivity).
  - destruct (orient p) as [p'|e]; simpl; [|discriminate].
    intros H; now injection H as <-.
  - destruct (mapM orient ps) as [ps'|e]; simpl; [|discriminate].
    intros H; now injection H as <-.
Qed.



End FixShape.

(** ** Geometry collections and failures of the orientation fix *)

Section OrientationFixProperties.
Context {library : Shapely}.

(** C2, as the code has it: a geometry collection takes the final [else]
    branch; [fix_cw_to_ccw] returns it unchanged, members included, and
    reports nothing. *)
Theorem collection_left_unchanged (gs : list geometry) (log : error_log) :
  fix_cw_to_ccw (Some (GeometryCollection gs)) log
  = (Some (GeometryCollection gs), log).
Proof.
  unfold fix_cw_to_ccw, fix_cw_to_ccw_try.
  destruct (is_empty (GeometryCollection gs)); reflexivity.
Qed.

Lemma mapM_first_failure (ps : list polygon) :
  mapM orient ps
  = match first_failure ps with
    | Some e => Raise e
    | None => mapM orient ps
    end.
Proof.
  induction ps as [|p ps IH]; cbn [mapM first_failure]; [reflexivity|].
  destruct (orient p) as [p'|e]; cbn [bind]; [|reflexivity].
  rewrite IH. destruct (first_failure ps); reflexivity.
Qed.

Lemma mapM_no_failure (ps : list polygon) :
  first_failure ps = None -> exists ps', mapM orient ps = Ok ps'.
Proof.
  induction ps as [|p ps IH]; cbn [mapM first_failure]; [eauto|].
  destruct (orient p) as [p'|e]; cbn [bind]; [|discriminate].
  intros H. destruct (IH H) as [ps' ->]. cbn [bind]. eauto.
Qed.

Lemma body_raises (geom : option geometry) (e : exn) :
  orientation_failure geom = Some e -> fix_cw_to_ccw_try geom = Raise e.
Proof.
  destruct geom as [[c|cs|p|ps|ls|ps|gs]|]; cbn [orientation_failure];
    try discriminate.
  - cbn [fix_cw_to_ccw_try is_empty].
    destruct (polygon_is_empty p); [discriminate|]. cbn [first_failure].
    destruct (orient p) as [p'|e']; [discriminate|].
    intros H. now injection H as <-.
  - cbn [fix_cw_to_ccw_try is_empty].
    destruct (forallb polygon_is_empty ps); [discriminate|].
    intros H. rewrite mapM_first_failure, H. reflexivity.
Qed.

(** C9: when [orient] raises on the polygon, or on a member of the
    multi-polygon, the exception of the first call that fails is caught:
    one message is added to those shown, and the argument itself is
    returned. *)
Theorem failure_is_recovered (geom : option geometry) (log : error_log) (e : exn) :
  orientation_failure geom = Some e ->
  fix_cw_to_ccw geom log = (geom, log ++ [e]).
Proof.
  intros H. unfold fix_cw_to_ccw. now rewrite (body_raises geom e H).
Qed.

(** Nothing else is ever reported: without such a failure the log is left
    as it was. *)
Lemma no_failure_no_message (geom : option geometry) (log : error_log) :
  orientation_failure geom = None -> snd (fix_cw_to_ccw geom log) = log.
Proof.
  unfold fix_cw_to_ccw.
  destruct geom as [[c|cs|p|ps|ls|ps|gs]|];
    cbn [orientation_failure fix_cw_to_ccw_try is_empty];
    try (intros _; match goal with |- context [if ?b then _ else _] =>
                     destruct b end; reflexivity);
    try (intros _; reflexivity).
  - destruct (polygon_is_empty p); [reflexivity|]. cbn [first_failure].
    destruct (orient p); [reflexivity | discriminate].
  - destruct (forallb polygon_is_empty ps); [reflexivity|].
    intros H. destruct (mapM_no_failure ps H) as [ps' ->]. reflexivity.
Qed.

End OrientationFixProperties.

(** The claim of C2 fails on a collection holding one clockwise polygon:
    the member comes out clockwise, as it went in. *)
Lemma collection_member_stays_clockwise :
  is_ccw jakarta_cw = false
  /\ fst (fix_cw_to_ccw
            (Some (GeometryCollection [Polygon (mkPolygon jakarta_cw [])])) [])
     = Some (GeometryCollection [Polygon (mkPolygon jakarta_cw [])]).
Proof. split; vm_compute; reflexivity. Qed.

(** With the sample [orient], which raises [IndexError] on a polygon
    without coordinates as the one of shapely 2.0 does: the multi-polygon
    with an empty member comes back as it was, and the error is
    reported. *)
Lemma failure_is_recovered_witness :
  orientation_failure (library := sample_library) (Some multi_with_empty_member)
  = Some IndexError
  /\ fix_cw_to_ccw (library := sample_library) (Some multi_with_empty_member) []
     = (Some multi_with_empty_member, [IndexError]).
Proof.
  assert (H : orientation_failure (library := sample_library)
                (Some multi_with_empty_member) = Some IndexError)
    by reflexivity.
  split; [exact H|].
  exact (failure_is_recovered (Some multi_with_empty_member) [] IndexError H).
Defined.

(** Scenario A of the specification, with the sample [orient]: the
    clockwise ring comes out reversed. *)
Example jakarta_is_reversed :
  fix_cw_to_ccw (library := sample_library)
    (Some (Polygon (mkPolygon jakarta_cw []))) []
  = (Some (Polygon (mkPolygon jakarta_ccw [])), []).
Proof. vm_compute. reflexivity. Qed.

(** ** The orientation audit *)








(** The mixed multi-polygon is counted as counter clockwise: its large
    member decides. *)
Example mixed_winding_counts_ccw :
  check_orientation_stats [Some (MultiPolygon mixed_winding)] = Ok (mkStats 1 0 0).
Proof. vm_compute. reflexivity. Qed.

Lemma count_geometry_total (s : stats) (geom : option geometry) :
  (forall ps, geom = Some (MultiPolygon ps) -> ps <> []) ->
  exists s',
    count_geometry s geom = Ok s'
    /\ total_count s' = S (total_count s)
    /\ other_count s'
       = (other_count s + (if is_polygonal geom then 0 else 1))%nat.
Proof.
  intros Hne. unfold total_count.
  destruct geom as [[c|cs|p|ps|ls|ps|gs]|]; simpl;
    try (eexists; split; [reflexivity|]; simpl; split; lia).
  - destruct (is_ccw (exterior p)); eexists; (split; [reflexivity|]);
      simpl; split; lia.
  - destruct ps as [|p ps]; [now specialize (Hne [] eq_refl)|]. simpl.
    destruct (is_ccw _); eexists; (split; [reflexivity|]); simpl; split; lia.
Qed.

Lemma count_geometries_total (gdf : list (option geometry)) :
  (forall ps, In (Some (MultiPolygon ps)) gdf -> ps <> []) ->
  forall s, exists s',
    count_geometries s gdf = Ok s'
    /\ total_count s' = (total_count s + length gdf)%nat
    /\ other_count s' = (other_count s + count_other gdf)%nat.
Proof.
  unfold count_other.
  induction gdf as [|geom rest IH]; intros Hne s.
  - exists s. simpl. repeat split; lia.
  - destruct (count_geometry_total s geom) as (s1 & H1 & Ht1 & Ho1).
    { intros ps ->. apply Hne. left; reflexivity. }
    destruct (IH (fun ps H => Hne ps (or_intror H)) s1) as (s2 & H2 & Ht2 & Ho2).
    exists s2. cbn [count_geometries]. rewrite H1. cbn [bind].
    split; [exact H2|]. cbn [filter length].
    destruct (is_polygonal geom); simpl in *; split; lia.
Qed.

(** C10: a [None] geometry, like every geometry that is neither a polygon
    nor a multi-polygon, is counted as other; and when no multi-polygon of
    the collection is without members, the audit returns and its three
    counts sum to the number of records. *)
Theorem null_is_other_and_counts_sum (gdf : list (option geometry)) :
  (forall ps, In (Some (MultiPolygon ps)) gdf -> ps <> []) ->
  check_orientation_stats [None] = Ok (mkStats 0 0 1)
  /\ exists s,
      check_orientation_stats gdf = Ok s
      /\ (ccw_count s + cw_count s + other_count s)%nat = length gdf
      /\ other_count s = count_other gdf.
Proof.
  intros Hne. split; [reflexivity|].
  destruct (count_geometries_total gdf Hne (mkStats 0 0 0)) as (s & H & Ht & Ho).
  exists s. split; [exact H|]. split; [exact Ht | exact Ho].
Qed.

Lemma null_is_other_and_counts_sum_witness :
  (forall ps,
      In (Some (MultiPolygon ps))
         [None; Some (Point None); Some (Polygon (mkPolygon jakarta_cw []));
          Some (MultiPolygon mixed_winding)] -> ps <> [])
  /\ check_orientation_stats
       [None; Some (Point None); Some (Polygon (mkPolygon jakarta_cw []));
        Some (MultiPolygon mixed_winding)]
     = Ok (mkStats 1 1 2).
Proof.
  assert (H : forall ps,
      In (Some (MultiPolygon ps))
         [None; Some (Point None); Some (Polygon (mkPolygon jakarta_cw []));
          Some (MultiPolygon mixed_winding)] -> ps <> []).
  { intros ps [H | [H | [H | [H | []]]]]; try discriminate.
    injection H as <-. discriminate. }
  split; [exact H|].
  destruct (null_is_other_and_counts_sum _ H) as [_ (s & Hs & _)].
  rewrite Hs. vm_compute in Hs. symmetry. exact Hs.
Defined.

(** ** Rounding to the nearest integer *)

Lemma rne_div_near (a b : Z) :
  0 < b -> Z.abs (2 * a - 2 * rne_div a b * b) <= b.
Proof.
  intros Hb. unfold rne_div.
  pose proof (Z.div_mod a b ltac:(lia)) as Hdm.
  pose proof (Z.mod_pos_bound a b Hb) as Hm.
  destruct (Z.ltb_spec (2 * (a mod b)) b);
    [|destruct (Z.ltb_spec b (2 * (a mod b))); [|destruct (Z.even (a / b))]];
    nia.
Qed.

Lemma rne_div_nonneg (a b : Z) : 0 <= a -> 0 < b -> 0 <= rne_div a b.
Proof.
  intros Ha Hb. unfold rne_div.
  pose proof (Z.div_pos a b Ha Hb).
  destruct (_ <? _); [lia|]. destruct (_ <? _); [lia|].
  destruct (Z.even _); lia.
Qed.

Lemma rne_div_unique (a b m : Z) :
  0 < b -> Z.abs (2 * a - 2 * m * b) < b -> rne_div a b = m.
Proof.
  intros Hb Hm. pose proof (rne_div_near a b Hb) as Hr.
  assert (Z.abs (2 * (rne_div a b - m) * b) < 2 * b) by lia.
  nia.
Qed.

Lemma rne_div_exact (m b : Z) : 0 < b -> rne_div (m * b) b = m.
Proof. intros Hb. apply rne_div_unique; [exact Hb|]. lia. Qed.

Lemma rne_div_scale (a b c : Z) :
  0 < b -> 0 < c -> rne_div (a * c) (b * c) = rne_div a b.
Proof.
  intros Hb Hc. unfold rne_div.
  rewrite Z.div_mul_cancel_r by lia.
  rewrite Z.mul_mod_distr_r by lia.
  assert (H1 : (2 * (a mod b * c) <? b * c) = (2 * (a mod b) <? b)).
  { destruct (Z.ltb_spec (2 * (a mod b)) b), (Z.ltb_spec (2 * (a mod b * c)) (b * c));
      try reflexivity; nia. }
  assert (H2 : (b * c <? 2 * (a mod b * c)) = (b <? 2 * (a mod b))).
  { destruct (Z.ltb_spec b (2 * (a mod b))), (Z.ltb_spec (b * c) (2 * (a mod b * c)));
      try reflexivity; nia. }
  now rewrite H1, H2.
Qed.

(** ** The binary logarithm of a ratio *)

Lemma pow2_pos (k : Z) : 0 <= k -> 0 < 2 ^ k.
Proof. intros. apply Z.pow_pos_nonneg; lia. Qed.

Lemma pow2_ge_1 (k : Z) : 0 <= k -> 1 <= 2 ^ k.
Proof. intros H. pose proof (pow2_pos k H). lia. Qed.

Lemma pow2_mono (j k : Z) : 0 <= j <= k -> 2 ^ j <= 2 ^ k.
Proof. intros. apply Z.pow_le_mono_r; lia. Qed.

Lemma pow2_split (j k : Z) : 0 <= j -> 0 <= k -> 2 ^ (j + k) = 2 ^ j * 2 ^ k.
Proof. intros. apply Z.pow_add_r; lia. Qed.

Lemma pow2_le_mono (k k' n d : Z) :
  0 < n -> 0 < d -> k' <= k -> pow2_le k n d -> pow2_le k' n d.
Proof.
  intros Hn Hd Hk. unfold pow2_le.
  destruct (Z.leb_spec 0 k), (Z.leb_spec 0 k'); try lia; intros Hle.
  - pose proof (pow2_mono k' k ltac:(lia)). pose proof (pow2_pos k' ltac:(lia)). nia.
  - pose proof (pow2_ge_1 k ltac:(lia)). pose proof (pow2_ge_1 (- k') ltac:(lia)). nia.
  - pose proof (pow2_mono (- k) (- k') ltac:(lia)).
    pose proof (pow2_pos (- k) ltac:(lia)). nia.
Qed.

Lemma ilog2_ratio_lo (n d : Z) :
  0 < n -> 0 < d -> pow2_le (ilog2_ratio n d) n d.
Proof.
  intros Hn Hd. unfold ilog2_ratio.
  pose proof (Z.log2_spec n Hn) as [Hn1 Hn2].
  pose proof (Z.log2_spec d Hd) as [Hd1 Hd2].
  pose proof (Z.log2_nonneg n) as Ha. pose proof (Z.log2_nonneg d) as Hb.
  set (a := Z.log2 n) in *. set (b := Z.log2 d) in *.
  rewrite Z.pow_succ_r in Hn2, Hd2 by lia.
  unfold pow2_le.
  destruct (Z.leb_spec 0 (a - b)) as [Hk | Hk].
  - destruct (Z.leb_spec (d * 2 ^ (a - b)) n) as [Ht | Ht].
    + destruct (Z.leb_spec 0 (a - b)); [exact Ht | lia].
    + destruct (Z.leb_spec 0 (a - b - 1)) as [Hk1 | Hk1].
      * assert (E : 2 ^ a = 2 ^ (a - b - 1) * (2 * 2 ^ b)).
        { rewrite <- Z.pow_succ_r, <- Z.pow_add_r by lia. f_equal. lia. }
        pose proof (pow2_pos (a - b - 1) Hk1). nia.
      * assert (Eab : 2 ^ a = 2 ^ b) by (f_equal; lia).
        replace (- (a - b - 1)) with 1 by lia.
        change (2 ^ 1) with 2. lia.
  - destruct (Z.leb_spec d (n * 2 ^ (- (a - b)))) as [Ht | Ht].
    + destruct (Z.leb_spec 0 (a - b)); [lia | exact Ht].
    + destruct (Z.leb_spec 0 (a - b - 1)); [lia|].
      assert (E : 2 * 2 ^ b = 2 ^ a * 2 ^ (- (a - b - 1))).
      { rewrite <- Z.pow_succ_r, <- Z.pow_add_r by lia. f_equal. lia. }
      pose proof (pow2_pos (- (a - b - 1)) ltac:(lia)). nia.
Qed.

Lemma ilog2_ratio_hi (n d : Z) :
  0 < n -> 0 < d -> ~ pow2_le (ilog2_ratio n d + 1) n d.
Proof.
  intros Hn Hd. unfold ilog2_ratio.
  pose proof (Z.log2_spec n Hn) as [Hn1 Hn2].
  pose proof (Z.log2_spec d Hd) as [Hd1 Hd2].
  pose proof (Z.log2_nonneg n) as Ha. pose proof (Z.log2_nonneg d) as Hb.
  set (a := Z.log2 n) in *. set (b := Z.log2 d) in *.
  rewrite Z.pow_succ_r in Hn2, Hd2 by lia.
  unfold pow2_le.
  destruct (Z.leb_spec 0 (a - b)) as [Hk | Hk].
  - destruct (Z.leb_spec (d * 2 ^ (a - b)) n) as [Ht | Ht].
    + destruct (Z.leb_spec 0 (a - b + 1)); [|lia].
      assert (E : 2 * 2 ^ a = 2 ^ b * 2 ^ (a - b + 1)).
      { rewrite <- Z.pow_succ_r, <- Z.pow_add_r by lia. f_equal. lia. }
      pose proof (pow2_pos (a - b + 1) ltac:(lia)). nia.
    + replace (a - b - 1 + 1) with (a - b) by lia.
      destruct (Z.leb_spec 0 (a - b)); lia.
  - destruct (Z.leb_spec d (n * 2 ^ (- (a - b)))) as [Ht | Ht].
    + destruct (Z.leb_spec 0 (a - b + 1)) as [Hk1 | Hk1].
      * replace (a - b + 1) with 0 by lia.
        assert (E : 2 ^ b = 2 * 2 ^ a).
        { rewrite <- Z.pow_succ_r by lia. f_equal. lia. }
        change (2 ^ 0) with 1. lia.
      * assert (E : 2 ^ b = 2 * 2 ^ a * 2 ^ (- (a - b + 1))).
        { rewrite <- Z.pow_succ_r, <- Z.pow_add_r by lia. f_equal. lia. }
        pose proof (pow2_pos (- (a - b + 1)) ltac:(lia)). nia.
    + replace (a - b - 1 + 1) with (a - b) by lia.
      destruct (Z.leb_spec 0 (a - b)); lia.
Qed.

Lemma ilog2_ratio_ge (k n d : Z) :
  0 < n -> 0 < d -> pow2_le k n d -> k <= ilog2_ratio n d.
Proof.
  intros Hn Hd H. destruct (Z.le_gt_cases k (ilog2_ratio n d)) as [|Hlt];
    [assumption|].
  exfalso. apply (ilog2_ratio_hi n d Hn Hd).
  apply (pow2_le_mono k); try assumption. lia.
Qed.

Lemma ilog2_ratio_le (k n d : Z) :
  0 < n -> 0 < d -> ~ pow2_le (k + 1) n d -> ilog2_ratio n d <= k.
Proof.
  intros Hn Hd H. destruct (Z.le_gt_cases (ilog2_ratio n d) k) as [|Hlt];
    [assumption|].
  exfalso. apply H.
  apply (pow2_le_mono (ilog2_ratio n d)); try assumption; [lia|].
  now apply ilog2_ratio_lo.
Qed.

(** ** Scaled comparisons *)

Lemma scale_pos : 0 < scale.
Proof. apply pow2_pos. discriminate. Qed.

Lemma pow2_bias (k : Z) : 0 <= k -> 2 ^ (k + bias) = 2 ^ k * scale.
Proof. intros. unfold scale. apply pow2_split; [assumption | discriminate]. Qed.

Lemma pow2_unbias (k : Z) : - bias <= k <= 0 -> 2 ^ (- k) * 2 ^ (k + bias) = scale.
Proof.
  intros H. unfold scale. rewrite <- pow2_split by lia. f_equal. lia.
Qed.

Lemma pow2_le_scaled (k n d : Z) :
  0 <= k + bias -> pow2_le k n d <-> 2 ^ (k + bias) * d <= n * scale.
Proof.
  intros Hk. unfold pow2_le. pose proof scale_pos as HS.
  destruct (Z.leb_spec 0 k).
  - rewrite pow2_bias by assumption. nia.
  - rewrite <- (pow2_unbias k) by lia.
    pose proof (pow2_pos (k + bias) Hk). nia.
Qed.

Lemma pow2_le_tiny (k n d : Z) :
  0 < n -> k + bias < 0 -> ~ pow2_le k n d -> 2 * (n * scale) < d.
Proof.
  intros Hn Hk. unfold pow2_le.
  assert (Hb : 0 <= bias) by discriminate.
  destruct (Z.leb_spec 0 k); [lia|]. intros Hnot.
  assert (E : 2 ^ (- k) = 2 ^ (- k - bias - 1) * (2 * scale)).
  { unfold scale. rewrite <- Z.pow_succ_r, <- pow2_split by lia. f_equal. lia. }
  pose proof (pow2_ge_1 (- k - bias - 1) ltac:(lia)). pose proof scale_pos. nia.
Qed.

Lemma mantissa_scaled (n d e : Z) :
  0 < d -> emin <= e ->
  (if 0 <=? e then rne_div n (d * 2 ^ e) else rne_div (n * 2 ^ (- e)) d)
  = rne_div (n * scale) (d * 2 ^ (e + bias)).
Proof.
  intros Hd He. assert (Hb : emin = - bias) by reflexivity.
  pose proof scale_pos as HS.
  destruct (Z.leb_spec 0 e).
  - rewrite pow2_bias by assumption.
    rewrite <- (rne_div_scale n (d * 2 ^ e) scale).
    + f_equal. ring.
    + pose proof (pow2_pos e ltac:(lia)). nia.
    + exact HS.
  - rewrite <- (rne_div_scale (n * 2 ^ (- e)) d (2 ^ (e + bias))).
    + f_equal. rewrite <- Z.mul_assoc, pow2_unbias by lia. reflexivity.
    + exact Hd.
    + apply pow2_pos. lia.
Qed.

Lemma digits_scaled (m p e : Z) :
  emin <= e ->
  (if 0 <=? e then m * 2 ^ e * 10 ^ p
   else rne_div (m * 10 ^ p) (2 ^ (- e)))
  = rne_div (m * 2 ^ (e + bias) * 10 ^ p) scale.
Proof.
  intros He. assert (Hb : emin = - bias) by reflexivity.
  pose proof scale_pos as HS.
  destruct (Z.leb_spec 0 e).
  - rewrite pow2_bias by assumption.
    replace (m * (2 ^ e * scale) * 10 ^ p) with (m * 2 ^ e * 10 ^ p * scale) by ring.
    symmetry. now apply rne_div_exact.
  - rewrite <- (rne_div_scale (m * 10 ^ p) (2 ^ (- e)) (2 ^ (e + bias))).
    + rewrite pow2_unbias by lia. f_equal. ring.
    + apply pow2_pos. lia.
    + apply pow2_pos. lia.
Qed.

(** The exponent [nearest] chooses brackets the scaled ratio. *)
Lemma exponent_bounds (n d : Z) :
  0 < n -> 0 < d ->
  let e := Z.max (ilog2_ratio n d - 52) emin in
  n * scale < 2 ^ 53 * 2 ^ (e + bias) * d
  /\ (emin < e -> 2 ^ 52 * 2 ^ (e + bias) * d <= n * scale).
Proof.
  intros Hn Hd e. assert (Hb : emin = - bias) by reflexivity.
  assert (Hb' : 0 <= bias) by discriminate.
  pose proof scale_pos as HS.
  pose proof (ilog2_ratio_lo n d Hn Hd) as Hlo.
  pose proof (ilog2_ratio_hi n d Hn Hd) as Hhi.
  set (lg := ilog2_ratio n d) in *.
  assert (HE : 0 <= e + bias) by (unfold e; lia).
  pose proof (pow2_pos (e + bias) HE) as HU.
  split.
  - destruct (Z.le_gt_cases 0 (lg + 1 + bias)) as [H | H].
    + assert (Hs : n * scale < 2 ^ (lg + 1 + bias) * d).
      { apply Z.nle_gt. intros Hc. apply Hhi. now apply pow2_le_scaled. }
      assert (Hm : 2 ^ (lg + 1 + bias) <= 2 ^ (53 + (e + bias)))
        by (apply pow2_mono; unfold e; lia).
      rewrite (pow2_split 53 (e + bias)) in Hm by lia.
      apply Z.lt_le_trans with (2 ^ (lg + 1 + bias) * d); [exact Hs|].
      apply Z.mul_le_mono_nonneg_r; [lia | exact Hm].
    + pose proof (pow2_le_tiny (lg + 1) n d Hn ltac:(lia) Hhi) as Ht.
      pose proof (pow2_ge_1 53 ltac:(lia)) as H53.
      apply Z.lt_le_trans with (1 * 1 * d); [lia|].
      apply Z.mul_le_mono_nonneg_r; [lia|].
      apply Z.mul_le_mono_nonneg; lia.
  - intros He. assert (Ee : e = lg - 52) by (unfold e in *; lia).
    assert (Hs : 2 ^ (lg + bias) * d <= n * scale)
      by (apply pow2_le_scaled; [lia | exact Hlo]).
    replace (lg + bias) with (52 + (e + bias)) in Hs by lia.
    rewrite (pow2_split 52 (e + bias)) in Hs by lia. exact Hs.
Qed.

(** ** What [nearest] returns *)

Lemma nearest_eq (s : bool) (n d : Z) :
  0 < n -> 0 < d ->
  nearest s n d
  = let e := Z.max (ilog2_ratio n d - 52) emin in
    let m := rne_div (n * scale) (d * 2 ^ (e + bias)) in
    if m =? 2 ^ 53
    then (if emax <? e + 1 then FInf s else FFin s (Z.to_pos (2 ^ 52)) (e + 1))
    else if m =? 0 then FZero s
         else if emax <? e then FInf s else FFin s (Z.to_pos m) e.
Proof.
  intros Hn Hd. unfold nearest.
  destruct (Z.leb_spec n 0); [lia|].
  rewrite mantissa_scaled by lia. cbv zeta.
  destruct (_ =? 2 ^ 53); reflexivity.
Qed.

Lemma exponent_is (n d e : Z) :
  0 < n -> 0 < d -> emin <= e ->
  n * scale < 2 ^ 53 * 2 ^ (e + bias) * d ->
  (emin < e -> 2 ^ 52 * 2 ^ (e + bias) * d <= n * scale) ->
  Z.max (ilog2_ratio n d - 52) emin = e.
Proof.
  intros Hn Hd He Hup Hlo. assert (Hb : emin = - bias) by reflexivity.
  assert (Hle : ilog2_ratio n d <= 52 + e).
  { apply ilog2_ratio_le; try assumption. intros H.
    apply pow2_le_scaled in H; [|lia].
    replace (52 + e + 1 + bias) with (53 + (e + bias)) in H by lia.
    rewrite (pow2_split 53 (e + bias)) in H by lia. lia. }
  destruct (Z.eq_dec e emin) as [-> | Hne]; [lia|].
  assert (Hge : 52 + e <= ilog2_ratio n d).
  { apply ilog2_ratio_ge; try assumption.
    apply pow2_le_scaled; [lia|].
    replace (52 + e + bias) with (52 + (e + bias)) by lia.
    rewrite (pow2_split 52 (e + bias)) by lia. apply Hlo. lia. }
  lia.
Qed.

Lemma nearest_fin (s s' : bool) (n d : Z) (m : positive) (e : Z) :
  0 < n -> 0 < d -> nearest s n d = FFin s' m e ->
  s' = s /\ canonical m e
  /\ Z.abs (2 * (n * scale) - 2 * (Z.pos m * 2 ^ (e + bias)) * d)
     <= 2 ^ (e + bias) * d.
Proof.
  intros Hn Hd. rewrite nearest_eq by assumption. cbv zeta.
  assert (Hb : emin = - bias) by reflexivity.
  destruct (exponent_bounds n d Hn Hd) as [Hup Hlo].
  set (e0 := Z.max (ilog2_ratio n d - 52) emin) in *.
  assert (HE : 0 <= e0 + bias) by (unfold e0; lia).
  pose proof (pow2_pos (e0 + bias) HE) as HU.
  set (U := 2 ^ (e0 + bias)) in *.
  assert (HdU : 0 < d * U) by nia.
  pose proof (rne_div_near (n * scale) (d * U) HdU) as Hnear.
  pose proof (rne_div_nonneg (n * scale) (d * U)
                ltac:(pose proof scale_pos; nia) HdU) as Hnn.
  set (mc := rne_div (n * scale) (d * U)) in *.
  assert (H52 : 2 ^ 52 = 4503599627370496) by reflexivity.
  assert (H53 : 2 ^ 53 = 9007199254740992) by reflexivity.
  destruct (Z.eqb_spec mc (2 ^ 53)) as [Hc | Hc].
  - destruct (Z.ltb_spec emax (e0 + 1)) as [Hmax | Hmax]; [discriminate|].
    intros Heq. injection Heq as <- <- <-. split; [reflexivity|]. split.
    + left. split; [rewrite H52, H53; lia | unfold e0 in *; lia].
    + replace (e0 + 1 + bias) with (1 + (e0 + bias)) by lia.
      rewrite (pow2_split 1 (e0 + bias)) by lia. fold U.
      change (2 ^ 1) with 2. rewrite Hc in Hnear. rewrite H52, H53 in *. nia.
  - destruct (Z.eqb_spec mc 0) as [Hz | Hz]; [discriminate|].
    destruct (Z.ltb_spec emax e0) as [Hmax | Hmax]; [discriminate|].
    intros Heq. injection Heq as <- <- <-. split; [reflexivity|].
    rewrite Z2Pos.id by lia.
    assert (Hlt : mc < 2 ^ 53).
    { assert (mc <= 2 ^ 53); [|lia]. rewrite H53 in *. nia. }
    split.
    + destruct (Z.eq_dec e0 emin) as [Ee | Ee].
      * destruct (Z.lt_ge_cases mc (2 ^ 52)); [right | left]; lia.
      * left. assert (2 ^ 52 <= mc); [|lia].
        specialize (Hlo ltac:(unfold e0 in *; lia)). rewrite H52 in *. nia.
    + fold U. replace (2 * (mc * U) * d) with (2 * mc * (d * U)) by ring.
      rewrite (Z.mul_comm U d). exact Hnear.
Qed.

(** A ratio strictly closer to a canonical number than to its two
    neighbours is rounded to that number. *)
Lemma nearest_unique (s : bool) (n d : Z) (m : positive) (e : Z) :
  0 < n -> 0 < d -> canonical m e ->
  Z.abs (2 * (n * scale) - 2 * (Z.pos m * 2 ^ (e + bias)) * d)
  < 2 ^ (e + bias) * d ->
  (Z.pos m = 2 ^ 52 -> emin < e ->
   4 * (Z.pos m * 2 ^ (e + bias) * d - n * scale) < 2 ^ (e + bias) * d) ->
  nearest s n d = FFin s m e.
Proof.
  intros Hn Hd Hcan Hhalf Hquarter.
  assert (Hb : emin = - bias) by reflexivity.
  assert (Hrange : Z.pos m < 2 ^ 53 /\ emin <= e <= emax
                   /\ (emin < e -> 2 ^ 52 <= Z.pos m)).
  { destruct Hcan as [[Hm He] | [Hm He]]; unfold emin, emax in *; lia. }
  destruct Hrange as (Hm53 & He & Hnormal).
  assert (HE : 0 <= e + bias) by lia.
  pose proof (pow2_pos (e + bias) HE) as HU.
  set (U := 2 ^ (e + bias)) in *.
  set (X := n * scale) in *.
  set (M := Z.pos m) in *.
  assert (HM : 0 < M) by (unfold M; lia).
  assert (HdU : 0 < d * U) by nia.
  rewrite nearest_eq by assumption. cbv zeta. fold X.
  destruct (Z.eq_dec M (2 ^ 52)) as [EM | NM].
  - (* a power of two: the lower neighbour is closer *)
    destruct (Z.lt_ge_cases X (M * U * d)) as [Hbelow | Habove].
    + destruct (Z.eq_dec e emin) as [Ee | Ne].
      * assert (E0 : Z.max (ilog2_ratio n d - 52) emin = e).
        { apply exponent_is; try assumption; try lia; fold U X; nia. }
        rewrite E0. fold U.
        rewrite (rne_div_unique X (d * U) M); [|exact HdU|].
        2:{ replace (2 * M * (d * U)) with (2 * (M * U) * d) by ring.
            rewrite (Z.mul_comm d U). exact Hhalf. }
        destruct (Z.eqb_spec M (2 ^ 53)); [lia|].
        destruct (Z.eqb_spec M 0); [lia|].
        destruct (Z.ltb_spec emax e); [lia|].
        unfold M. now rewrite Pos2Z.id.
      * specialize (Hquarter EM ltac:(lia)).
        assert (HE1 : 0 <= e - 1 + bias) by lia.
        pose proof (pow2_pos (e - 1 + bias) HE1) as HU1.
        assert (EU : U = 2 * 2 ^ (e - 1 + bias)).
        { unfold U. rewrite <- Z.pow_succ_r by lia. f_equal. lia. }
        set (U1 := 2 ^ (e - 1 + bias)) in *.
        assert (E0 : Z.max (ilog2_ratio n d - 52) emin = e - 1).
        { apply exponent_is; try assumption; try lia; fold U1 X;
            try intros _; nia. }
        rewrite E0. fold U1.
        rewrite (rne_div_unique X (d * U1) (2 ^ 53)).
        2:{ nia. }
        2:{ nia. }
        rewrite Z.eqb_refl. replace (e - 1 + 1) with e by lia.
        destruct (Z.ltb_spec emax e); [lia|].
        f_equal. apply Pos2Z.inj. rewrite Z2Pos.id by lia.
        fold M. now rewrite EM.
    + assert (E0 : Z.max (ilog2_ratio n d - 52) emin = e).
      { apply exponent_is; try assumption; try lia; fold U X;
          try intros _; nia. }
      rewrite E0. fold U.
      rewrite (rne_div_unique X (d * U) M); [|exact HdU|].
      2:{ replace (2 * M * (d * U)) with (2 * (M * U) * d) by ring.
          rewrite (Z.mul_comm d U). exact Hhalf. }
      destruct (Z.eqb_spec M (2 ^ 53)); [lia|].
      destruct (Z.eqb_spec M 0); [lia|].
      destruct (Z.ltb_spec emax e); [lia|].
      unfold M. now rewrite Pos2Z.id.
  - assert (E0 : Z.max (ilog2_ratio n d - 52) emin = e).
    { apply exponent_is; try assumption; try lia; fold U X.
      - nia.
      - intros Hgt. specialize (Hnormal Hgt). nia. }
    rewrite E0. fold U.
    rewrite (rne_div_unique X (d * U) M); [|exact HdU|].
    2:{ replace (2 * M * (d * U)) with (2 * (M * U) * d) by ring.
        rewrite (Z.mul_comm d U). exact Hhalf. }
    destruct (Z.eqb_spec M (2 ^ 53)); [lia|].
    destruct (Z.eqb_spec M 0); [lia|].
    destruct (Z.ltb_spec emax e); [lia|].
    unfold M. now rewrite Pos2Z.id.
Qed.

(** ** Rounding twice *)

Lemma pow10_not_pow2 (p k : Z) : 1 <= p <= 15 -> 0 <= k -> 10 ^ p <> 2 ^ k.
Proof.
  intros Hp Hk E.
  assert (Hl : 2 ^ Z.log2 (10 ^ p) = 10 ^ p)
    by (rewrite E, Z.log2_pow2 by assumption; reflexivity).
  assert (Hcases : p = 1 \/ p = 2 \/ p = 3 \/ p = 4 \/ p = 5 \/ p = 6 \/ p = 7
                   \/ p = 8 \/ p = 9 \/ p = 10 \/ p = 11 \/ p = 12 \/ p = 13
                   \/ p = 14 \/ p = 15) by lia.
  repeat (destruct Hcases as [-> | Hcases]; [vm_compute in Hl; discriminate|]).
  subst p. vm_compute in Hl. discriminate.
Qed.

Lemma pow10_bounds (p : Z) : 1 <= p <= 15 -> 0 < 10 ^ p < 2 ^ 50.
Proof.
  intros Hp. split; [apply Z.pow_pos_nonneg; lia|].
  apply Z.le_lt_trans with (10 ^ 15); [apply Z.pow_le_mono_r; lia | reflexivity].
Qed.

Lemma format_f_fin (p : Z) (s : bool) (m : positive) (e : Z) :
  emin <= e ->
  format_f p (FFin s m e)
  = TDec s (rne_div (Z.pos m * 2 ^ (e + bias) * 10 ^ p) scale) p.
Proof.
  intros He. unfold format_f. now rewrite digits_scaled.
Qed.

(** A number produced by the rounding is reproduced by it. *)
Lemma round_value_fixed (p : Z) (s : bool) (n : Z) (m : positive) (e : Z) :
  1 <= p <= 15 -> 0 < n ->
  nearest s n (10 ^ p) = FFin s m e ->
  round_value p (FFin s m e) = FFin s m e.
Proof.
  intros Hp Hn Hy.
  destruct (pow10_bounds p Hp) as [HD HD50].
  destruct (nearest_fin s s n (10 ^ p) m e Hn HD Hy) as (_ & Hcan & Hnear).
  assert (Hb : emin = - bias) by reflexivity.
  assert (Hbias : bias = 1074) by reflexivity.
  assert (He : emin <= e <= emax)
    by (destruct Hcan as [[_ ?] | [_ ?]]; unfold emin, emax in *; lia).
  unfold round_value. rewrite format_f_fin by lia. cbn [float_of_text].
  pose proof scale_pos as HS.
  assert (HE : 0 <= e + bias) by lia.
  pose proof (pow2_pos (e + bias) HE) as HU.
  set (U := 2 ^ (e + bias)) in *.
  set (D := 10 ^ p) in *.
  set (M := Z.pos m) in *.
  assert (HM : 0 < M) by (unfold M; lia).
  destruct (Z.lt_ge_cases (U * D) scale) as [Hfine | Hcoarse].
  - (* the decimal grid is coarser than the binary one *)
    rewrite (rne_div_unique (M * U * D) scale n); [exact Hy | exact HS |]. lia.
  - destruct (Z.le_gt_cases 0 e) as [Hpos | Hneg].
    + (* an integer: it is printed exactly *)
      assert (EU : U = 2 ^ e * scale) by (unfold U; now apply pow2_bias).
      pose proof (pow2_pos e Hpos) as H2e.
      replace (M * U * D) with (M * 2 ^ e * D * scale) by (rewrite EU; ring).
      rewrite rne_div_exact by exact HS.
      apply nearest_unique; try assumption.
      * nia.
      * fold U M. replace (2 * (M * 2 ^ e * D * scale) - 2 * (M * U) * D) with 0
          by (rewrite EU; ring).
        simpl. nia.
      * intros _ _. fold U M.
        replace (M * U * D - M * 2 ^ e * D * scale) with 0 by (rewrite EU; ring).
        nia.
    + assert (ES : 2 ^ (- e) * U = scale) by (unfold U; apply pow2_unbias; lia).
      pose proof (pow2_pos (- e) ltac:(lia)) as H2e.
      assert (HDne : D <> 2 ^ (- e)) by (apply pow10_not_pow2; lia).
      assert (HDgt : 2 ^ (- e) < D) by nia.
      assert (Hstrict : scale < U * D) by nia.
      assert (He50 : - e < 50).
      { apply (Z.pow_lt_mono_r_iff 2); lia. }
      pose proof (rne_div_near (M * U * D) scale HS) as Hn'.
      pose proof (rne_div_nonneg (M * U * D) scale ltac:(nia) HS) as Hnn.
      set (n' := rne_div (M * U * D) scale) in *.
      assert (Hn'pos : 0 < n').
      { destruct (Z.eq_dec n' 0) as [Ez | Nz]; [|lia].
        rewrite Ez in Hn'. assert (U * D <= M * U * D) by nia. lia. }
      apply nearest_unique; try assumption.
      * fold U M. lia.
      * intros EM Hgt. fold U M. fold M in EM.
        assert (E52 : 2 ^ 52 = 2 ^ (52 + e) * 2 ^ (- e)).
        { rewrite <- pow2_split by lia. f_equal. lia. }
        assert (Hexact : n' = 2 ^ (52 + e) * D).
        { unfold n'. replace (M * U * D) with (2 ^ (52 + e) * D * scale).
          - now apply rne_div_exact.
          - rewrite EM, E52, <- ES. ring. }
        replace (M * U * D - n' * scale) with 0.
        -- nia.
        -- rewrite Hexact, EM, E52, <- ES. ring.
Qed.


(** ** The digits [float] accepts *)

Lemma digit_count_le (fuel : nat) (n k : Z) :
  0 <= k -> n < 10 ^ k -> digit_count fuel n <= k.
Proof.
  revert n k. induction fuel as [|fuel IH]; intros n k Hk Hn; cbn [digit_count].
  - exact Hk.
  - destruct (Z.leb_spec n 0) as [H0 | H0]; [exact Hk|].
    assert (Hk1 : 1 <= k).
    { destruct (Z.eq_dec k 0) as [-> | Hne]; [|lia].
      change (10 ^ 0) with 1 in Hn. lia. }
    assert (Hq : n / 10 < 10 ^ (k - 1)).
    { apply Z.div_lt_upper_bound; [lia|].
      replace k with (1 + (k - 1)) in Hn by lia.
      rewrite Z.pow_add_r in Hn by lia. exact Hn. }
    pose proof (IH (n / 10) (k - 1) ltac:(lia) Hq). lia.
Qed.

Lemma ndigits_le (n k : Z) : 0 <= k -> n < 10 ^ k -> ndigits n <= k.
Proof. intros Hk Hn. unfold ndigits. now apply digit_count_le. Qed.

Lemma digit_count_ge (fuel : nat) (n k : Z) :
  0 <= k -> 10 ^ k <= n -> n < 2 ^ Z.of_nat fuel ->
  k + 1 <= digit_count fuel n.
Proof.
  revert n k. induction fuel as [|fuel IH]; intros n k Hk Hn Hf;
    cbn [digit_count].
  - pose proof (Z.pow_pos_nonneg 10 k ltac:(lia) Hk).
    change (2 ^ Z.of_nat 0) with 1 in Hf. lia.
  - pose proof (Z.pow_pos_nonneg 10 k ltac:(lia) Hk) as Hpos.
    destruct (Z.leb_spec n 0) as [H0 | H0]; [lia|].
    assert (Hhalf : n / 10 < 2 ^ Z.of_nat fuel).
    { apply Z.div_lt_upper_bound; [lia|].
      rewrite Nat2Z.inj_succ, Z.pow_succ_r in Hf by lia.
      pose proof (Z.pow_pos_nonneg 2 (Z.of_nat fuel) ltac:(lia) ltac:(lia)).
      lia. }
    destruct (Z.eq_dec k 0) as [-> | Hne].
    + assert (Hnn : forall f m, 0 <= digit_count f m).
      { clear. induction f as [|f IHf]; intros m; cbn [digit_count]; [lia|].
        destruct (m <=? 0); [lia|]. pose proof (IHf (m / 10)). lia. }
      pose proof (Hnn fuel (n / 10)). lia.
    + assert (Hq : 10 ^ (k - 1) <= n / 10).
      { apply Z.div_le_lower_bound; [lia|].
        replace k with (1 + (k - 1)) in Hn by lia.
        rewrite Z.pow_add_r in Hn by lia. exact Hn. }
      pose proof (IH (n / 10) (k - 1) ltac:(lia) Hq Hhalf). lia.
Qed.

Lemma ndigits_ge (n k : Z) : 0 <= k -> 10 ^ k <= n -> k + 1 <= ndigits n.
Proof.
  intros Hk Hn. unfold ndigits.
  pose proof (Z.pow_pos_nonneg 10 k ltac:(lia) Hk) as Hpos.
  apply digit_count_ge; [exact Hk | exact Hn |].
  pose proof (Z.log2_nonneg n) as Hl.
  destruct (Z.log2_spec n ltac:(lia)) as [_ Hup].
  rewrite Nat2Z.inj_succ, Z2Nat.id by exact Hl. exact Hup.
Qed.

(** A text of at most [10^9] digits is read. *)
Lemma py_float_ok (s : bool) (n p k : Z) :
  0 <= k -> n < 10 ^ k -> k <= max_digits -> p <= max_digits ->
  py_float (TDec s n p) = Ok (float_of_text (TDec s n p)).
Proof.
  intros Hk Hn Hkm Hp. unfold py_float.
  pose proof (ndigits_le n k Hk Hn) as Hd.
  destruct (Z.ltb_spec max_digits (ndigits n)); [lia|].
  destruct (Z.ltb_spec max_digits p); [lia|]. reflexivity.
Qed.

(** A text of more than [10^9] digits is refused. *)
Lemma py_float_raises (s : bool) (n p : Z) :
  10 ^ max_digits <= n -> py_float (TDec s n p) = Raise ValueError.
Proof.
  intros Hn. unfold py_float.
  assert (Hk : 0 <= max_digits) by (unfold max_digits; lia).
  pose proof (ndigits_ge n max_digits Hk Hn) as Hd.
  destruct (Z.ltb_spec max_digits (ndigits n)); [reflexivity | lia].
Qed.

(** ** Binary64 ordinates *)

Lemma binary64_canonical (m : positive) (e : Z) :
  binary64 (FFin false m e) = true <-> canonical m e.
Proof.
  unfold canonical. cbn [binary64].
  rewrite orb_true_iff, !andb_true_iff, !Z.leb_le, !Z.ltb_lt, Z.eqb_eq.
  tauto.
Qed.

Lemma nearest_binary64 (s : bool) (n d : Z) :
  0 < d -> binary64 (nearest s n d) = true.
Proof.
  intros Hd. destruct (Z.le_gt_cases n 0) as [Hn | Hn].
  - unfold nearest. destruct (Z.leb_spec n 0); [reflexivity | lia].
  - destruct (nearest s n d) as [|s'|s'|s' m e] eqn:Hy; try reflexivity.
    destruct (nearest_fin s s' n d m e Hn Hd Hy) as (_ & Hc & _).
    now apply (binary64_canonical m e).
Qed.



(** The digits written for a binary64 number: fewer than [p + 309]. *)
Lemma format_f_digits (p : Z) (s : bool) (m : positive) (e : Z) :
  0 <= p -> canonical m e ->
  exists n, format_f p (FFin s m e) = TDec s n p /\ n < 10 ^ (p + 309).
Proof.
  intros Hp Hc.
  assert (HD : 0 < 10 ^ p) by (apply Z.pow_pos_nonneg; lia).
  assert (H52 : 2 ^ 52 = 4503599627370496) by reflexivity.
  assert (H53 : 2 ^ 53 = 9007199254740992) by reflexivity.
  assert (Hm : Z.pos m <= 2 ^ 53 - 1 /\ emin <= e <= emax).
  { destruct Hc as [[Hm He] | [Hm ->]]; rewrite ?H52, ?H53 in *;
      unfold emin, emax in *; lia. }
  destruct Hm as [Hm He].
  rewrite Z.pow_add_r by lia.
  unfold format_f. destruct (Z.leb_spec 0 e) as [H0 | H0].
  - eexists. split; [reflexivity|].
    assert (Hpow : 2 ^ e <= 2 ^ emax) by (apply Z.pow_le_mono_r; lia).
    pose proof (Z.pow_pos_nonneg 2 e ltac:(lia) H0) as Hpe.
    assert (Hme : Z.pos m * 2 ^ e <= (2 ^ 53 - 1) * 2 ^ emax)
      by (apply Z.mul_le_mono_nonneg; lia).
    assert (Hbig : (2 ^ 53 - 1) * 2 ^ emax < 10 ^ 309) by reflexivity.
    rewrite (Z.mul_comm (10 ^ p)).
    apply Z.mul_lt_mono_pos_r; [exact HD | lia].
  - eexists. split; [reflexivity|].
    assert (Hb : 2 <= 2 ^ (- e)).
    { change 2 with (2 ^ 1) at 1. apply Z.pow_le_mono_r; lia. }
    pose proof (rne_div_near (Z.pos m * 10 ^ p) (2 ^ (- e)) ltac:(lia)) as Hn.
    set (r := rne_div (Z.pos m * 10 ^ p) (2 ^ (- e))) in *.
    set (b := 2 ^ (- e)) in *. set (D := 10 ^ p) in *.
    assert (Hr : r <= Z.pos m * D) by nia.
    assert (Hbig : 2 ^ 53 - 1 < 10 ^ 309) by reflexivity.
    set (T := 10 ^ 309) in *. clearbody T. nia.
Qed.

(** ** [round_ordinate], [round_coords] and [round_coordinates] *)

Lemma round_ordinate_sound (p : Z) (x y : float) :
  round_ordinate p x = Ok y -> y = round_value p x.
Proof.
  unfold round_ordinate, py_format_f, round_value.
  destruct (_ || _); cbn [bind]; [discriminate|].
  unfold py_float. destruct (format_f p x) as [|s|s n q].
  - intros H. now injection H as <-.
  - intros H. now injection H as <-.
  - destruct (_ || _); [discriminate|]. intros H. now injection H as <-.
Qed.

Lemma round_coords_sound (p : Z) (c c' : coord) :
  round_coords p c = Ok c' -> c' = round_tuple p c.
Proof.
  destruct c as [x y | x y z]; cbn [round_coords round_tuple].
  - destruct (round_ordinate p x) as [x'|e] eqn:Hx; cbn [bind]; [|discriminate].
    destruct (round_ordinate p y) as [y'|e] eqn:Hy; cbn [bind]; [|discriminate].
    intros H. injection H as <-.
    now rewrite (round_ordinate_sound p x x' Hx), (round_ordinate_sound p y y' Hy).
  - destruct (round_ordinate p x) as [x'|e] eqn:Hx; cbn [bind]; [|discriminate].
    destruct (round_ordinate p y) as [y'|e] eqn:Hy; cbn [bind]; [|discriminate].
    destruct (round_ordinate p z) as [z'|e] eqn:Hz; cbn [bind]; [|discriminate].
    intros H. injection H as <-.
    now rewrite (round_ordinate_sound p x x' Hx), (round_ordinate_sound p y y' Hy),
      (round_ordinate_sound p z z' Hz).
Qed.

(** For a binary64 ordinate the call returns as long as the precision
    leaves room for the 309 digits a binary64 number can have before the
    point. *)
Lemma round_ordinate_ok (p : Z) (x : float) :
  0 <= p -> p + 309 <= max_digits -> binary64 x = true ->
  round_ordinate p x = Ok (round_value p x).
Proof.
  intros Hp Hmax Hx. unfold round_ordinate, py_format_f, round_value.
  assert (Hlim : max_digits < max_format_precision) by reflexivity.
  destruct (Z.ltb_spec p 0); [lia|].
  destruct (Z.ltb_spec max_format_precision p); [lia|]. cbn [orb bind].
  destruct x as [|s|s|s m e]; try reflexivity.
  - cbn [format_f]. apply (py_float_ok s 0 p 0); first [lia | reflexivity].
  - assert (Hc : canonical m e) by now apply (binary64_canonical m e).
    destruct (format_f_digits p s m e Hp Hc) as (n & -> & Hn).
    apply (py_float_ok s n p (p + 309)); lia.
Qed.

Lemma precision_limit_digits (p : Z) :
  p <= precision_limit -> p + 309 <= max_digits.
Proof. unfold precision_limit, max_digits. lia. Qed.

Lemma round_coords_ok (p : Z) (c : coord) :
  0 <= p -> p + 309 <= max_digits -> coord_binary64 c = true ->
  round_coords p c = Ok (round_tuple p c).
Proof.
  intros Hp Hmax. destruct c as [x y | x y z];
    cbn [coord_binary64 round_coords round_tuple]; intros H;
    repeat (apply andb_prop in H as [H ?]);
    now rewrite !round_ordinate_ok.
Qed.



(** When [round_coordinates] returns, it returns the geometry rebuilt with
    every ordinate rounded. *)
Lemma round_coordinates_sound (geom rounded : option geometry) (p : Z) :
  round_coordinates geom p = Ok rounded ->
  rounded = option_map (map_geometry (round_tuple p)) geom.
Proof.
  destruct geom as [g|]; cbn [round_coordinates option_map].
  - destruct (transform (round_coords p) g) as [g'|e] eqn:Hg; cbn [bind];
      [|discriminate].
    intros H. injection H as <-. f_equal.
    apply (transform_sound (round_coords p)); [|exact Hg].
    apply round_coords_sound.
  - intros H. now injection H as <-.
Qed.

(** On binary64 ordinates it returns whenever the library can rebuild the
    geometry. *)
Lemma round_coordinates_total (geom : option geometry) (p : Z) :
  0 <= p -> p + 309 <= max_digits -> all_binary64 geom = true ->
  option_rebuildable geom = true ->
  round_coordinates geom p
  = Ok (option_map (map_geometry (round_tuple p)) geom).
Proof.
  intros Hp Hmax Hb Hr.
  destruct geom as [g|]; cbn [round_coordinates option_map option_rebuildable] in *;
    [|reflexivity].
  rewrite (transform_total (round_coords p) (round_tuple p)); [reflexivity| |exact Hr].
  intros c Hc. apply round_coords_ok; try assumption.
  cbn [all_binary64] in Hb. rewrite forallb_forall in Hb. now apply Hb.
Qed.

Lemma well_formed_binary64 (geom : option geometry) :
  well_formed geom = true -> all_binary64 geom = true.
Proof. unfold well_formed. intros H. now apply andb_prop in H as [H _]. Qed.

(** A multi-line that holds coordinates and an empty line is refused by
    the library, whatever the precision. *)
Lemma round_coordinates_empty_part (ls : list (list coord)) (p : Z) :
  0 <= p -> p + 309 <= max_digits ->
  all_binary64 (Some (MultiLineString ls)) = true ->
  forallb coords_is_empty ls = false ->
  existsb coords_is_empty ls = true ->
  round_coordinates (Some (MultiLineString ls)) p = Raise EmptyPartError.
Proof.
  intros Hp Hmax Hb He Hex. cbn [round_coordinates].
  rewrite (transform_empty_part (round_coords p) (round_tuple p));
    [reflexivity| |exact He|exact Hex].
  intros c Hc. apply round_coords_ok; try assumption.
  cbn [all_binary64 coords_of] in Hb. rewrite forallb_forall in Hb.
  now apply Hb.
Qed.

(** The rounding keeps equal tuples equal: signed zeros stay zeros, and no
    NaN is made. *)
Lemma feqb_zero_or_eq (x y : float) :
  feqb x y = true ->
  (exists s t, x = FZero s /\ y = FZero t) \/ (x = y /\ x <> FNan).
Proof.
  destruct x as [|a|a|a m e], y as [|b|b|b n f]; simpl; try discriminate; intros H.
  - right. apply Bool.eqb_prop in H. subst. split; [reflexivity | discriminate].
  - left. eauto.
  - right. apply andb_prop in H as [H He]. apply andb_prop in H as [Hs Hm].
    apply Bool.eqb_prop in Hs. apply Pos.eqb_eq in Hm. apply Z.eqb_eq in He.
    subst. split; [reflexivity | discriminate].
Qed.

Lemma feqb_refl (x : float) : x <> FNan -> feqb x x = true.
Proof.
  destruct x as [|a|a|a m e]; simpl; intros H.
  - congruence.
  - apply Bool.eqb_reflx.
  - reflexivity.
  - now rewrite Bool.eqb_reflx, Pos.eqb_refl, Z.eqb_refl.
Qed.

Lemma nearest_not_nan (s : bool) (n d : Z) : nearest s n d <> FNan.
Proof.
  unfold nearest. destruct (n <=? 0); [discriminate|].
  destruct (if _ =? 2 ^ 53 then _ else _) as [m e].
  destruct (m =? 0); [discriminate|].
  destruct (emax <? e); discriminate.
Qed.

Lemma round_value_not_nan (p : Z) (x : float) :
  x <> FNan -> round_value p x <> FNan.
Proof.
  destruct x as [|a|a|a m e]; unfold round_value; simpl; intros H.
  - congruence.
  - discriminate.
  - apply nearest_not_nan.
  - apply nearest_not_nan.
Qed.

Lemma round_value_feqb (p : Z) (x y : float) :
  feqb x y = true -> feqb (round_value p x) (round_value p y) = true.
Proof.
  intros H. destruct (feqb_zero_or_eq x y H) as [(s & t & -> & ->) | [<- Hn]].
  - reflexivity.
  - apply feqb_refl. now apply round_value_not_nan.
Qed.

Lemma round_tuple_eqb (p : Z) (a b : coord) :
  coord_eqb a b = true -> coord_eqb (round_tuple p a) (round_tuple p b) = true.
Proof.
  destruct a, b; simpl; try discriminate; intros H;
    repeat (apply andb_prop in H as [H ?]);
    repeat (apply andb_true_intro; split); now apply round_value_feqb.
Qed.

(** The limit of [float] at work on 106.8, written with three digits apart
    from the fractional ones asked for: 999999997 of them are read, one
    more is refused. *)
Lemma scaled_106_8 (p : Z) :
  0 <= p ->
  let n := rne_div (7515381878174515 * 10 ^ p) (2 ^ 46) in
  format_f p f106_8 = TDec false n p
  /\ 10 ^ (p + 2) <= n < 10 ^ (p + 3).
Proof.
  intros Hp. cbv zeta. split; [reflexivity|].
  assert (HD : 0 < 10 ^ p) by (apply Z.pow_pos_nonneg; lia).
  rewrite !Z.pow_add_r by lia.
  change (10 ^ 2) with 100. change (10 ^ 3) with 1000.
  assert (Hb : 2 ^ 46 = 70368744177664) by reflexivity.
  pose proof (rne_div_near (7515381878174515 * 10 ^ p) (2 ^ 46) ltac:(lia)) as Hn.
  set (r := rne_div (7515381878174515 * 10 ^ p) (2 ^ 46)) in *.
  rewrite Hb in Hn. set (D := 10 ^ p) in *. clearbody r D. lia.
Qed.

Example float_reads_999999997_digits (p : Z) :
  0 <= p <= 999999997 ->
  round_ordinate p f106_8 = Ok (round_value p f106_8).
Proof.
  intros Hp. unfold round_ordinate, py_format_f, round_value.
  destruct (Z.ltb_spec p 0); [lia|].
  destruct (Z.ltb_spec max_format_precision p) as [Hbig|_];
    [unfold max_format_precision in Hbig; lia|].
  cbn [orb bind].
  destruct (scaled_106_8 p ltac:(lia)) as [-> [_ Hup]].
  apply (py_float_ok false _ p (p + 3)); unfold max_digits; lia.
Qed.

Example float_refuses_a_billion_digits (p : Z) :
  999999998 <= p -> round_ordinate p f106_8 = Raise ValueError.
Proof.
  intros Hp. unfold round_ordinate, py_format_f.
  destruct (Z.ltb_spec p 0); [lia|].
  destruct (Z.ltb_spec max_format_precision p); [reflexivity|].
  cbn [orb bind].
  destruct (scaled_106_8 p ltac:(lia)) as [-> [Hlo _]].
  apply py_float_raises.
  apply Z.le_trans with (10 ^ (p + 2)); [|exact Hlo].
  apply Z.pow_le_mono_r; [lia|]. unfold max_digits. lia.
Qed.

(** ** The scan of a text *)

Lemma split_dot_no_dot (s : text) : no_dot s = true -> split_dot s = [s].
Proof.
  induction s as [|c s IH]; simpl; [reflexivity|].
  intros H. apply andb_prop in H. destruct H as [Hc Hs].
  apply negb_true_iff in Hc. rewrite Hc, (IH Hs). reflexivity.
Qed.

Lemma split_dot_match (acc frac : text) :
  no_dot acc = true -> no_dot frac = true ->
  split_dot (acc ++ "."%char :: frac) = [acc; frac].
Proof.
  intros Ha Hf. induction acc as [|c acc IH]; simpl.
  - now rewrite (split_dot_no_dot frac Hf).
  - simpl in Ha. apply andb_prop in Ha. destruct Ha as [Hc Ha].
    apply negb_true_iff in Hc. rewrite Hc, (IH Ha). reflexivity.
Qed.


Lemma digit_not_dot (c : ascii) : is_digit c = true -> is_dot c = false.
Proof.
  intros H. unfold is_dot. destruct (Ascii.eqb_spec c "."%char) as [E|]; auto.
  subst c. discriminate H.
Qed.

Lemma digits_no_dot (s : text) : all_digits s = true -> no_dot s = true.
Proof.
  induction s as [|c s IH]; simpl; [auto|].
  intros H. apply andb_prop in H. destruct H as [Hc Hs].
  now rewrite (digit_not_dot c Hc), IH.
Qed.

Lemma no_dot_app (s t : text) : no_dot (s ++ t) = no_dot s && no_dot t.
Proof. apply forallb_app. Qed.


(** ** Transforming twice *)





Section TransformAgain.
Variable func : coord -> result coord.
Variable f : coord -> coord.
Hypothesis func_sound : forall c c', func c = Ok c' -> c' = f c.
Hypothesis func_again : forall c c', func c = Ok c' -> func c' = Ok c'.
Hypothesis f_eqb :
  forall a b, coord_eqb a b = true -> coord_eqb (f a) (f b) = true.





End TransformAgain.

(** ** Rounding twice *)





(** Scenario B of the specification: (106.123456789, -6.987654321) rounded
    to four digits is (106.1235, -6.9877). *)
Example scenario_b_rounding :
  round_coordinates
    (Some (Point (Some (XY (FFin false 7467774382034521 (-46))
                           (FFin true 7867399349062359 (-50)))))) 4
  = Ok (Some (Point (Some (XY (FFin false 7467777422738326 (-46))
                              (FFin true 7867450779044204 (-50)))))).
Proof. vm_compute. reflexivity. Qed.

(** ** Ring closure *)

Lemma rings_map_polygon (f : coord -> coord) (p : polygon) (r : ring) :
  In r (polygon_rings (map_polygon f p)) ->
  exists r0, In r0 (polygon_rings p) /\ (r = r0 \/ r = map_ring f r0).
Proof.
  unfold map_polygon. destruct (polygon_is_empty p).
  - intros H. exists r. auto.
  - unfold polygon_rings. simpl. intros [<- | H].
    + exists (exterior p). auto.
    + apply in_map_iff in H as (r0 & <- & H0). exists r0. auto.
Qed.

Lemma rings_map_geometry (f : coord -> coord) (g : geometry) (r : ring) :
  In r (rings (map_geometry f g)) ->
  exists r0, In r0 (rings g) /\ (r = r0 \/ r = map_ring f r0).
Proof.
  induction g as [c|cs|p|ps|ls|ps|gs IH] using geometry_ind';
    cbn [map_geometry rings]; try contradiction.
  - apply rings_map_polygon.
  - destruct (forallb polygon_is_empty ps).
    { intros H. exists r. auto. }
    unfold multipolygon. cbn [rings].
    intros H. apply in_flat_map in H as (q & Hq & Hr).
    apply filter_In in Hq as [Hq _].
    apply in_map_iff in Hq as (p & <- & Hp).
    destruct (rings_map_polygon f p r Hr) as (r0 & H0 & Hor).
    exists r0. split; [|exact Hor]. apply in_flat_map. eauto.
  - intros H. apply in_flat_map in H as (q & Hq & Hr).
    apply in_map_iff in Hq as (h & <- & Hh).
    rewrite Forall_forall in IH.
    destruct (IH h Hh Hr) as (r0 & H0 & Hor).
    exists r0. split; [|exact Hor]. apply in_flat_map. eauto.
Qed.

(** C6: when every ring of a geometry is closed, every ring of the
    geometry [round_coordinates] returns is closed: its first coordinate
    tuple equals its last.  The call returns for a precision from 0 to 1000
    when the geometry is well formed (binary64 ordinates, rings of at least
    four tuples) and the library can rebuild it. *)
Theorem ring_closure_preserved (g : geometry) (p : Z) :
  (forall r, In r (rings g) -> ring_closed r = true) ->
  (forall g',
      round_coordinates (Some g) p = Ok (Some g') ->
      forall r, In r (rings g') -> ring_closed r = true)
  /\ (0 <= p <= precision_limit ->
      well_formed (Some g) = true -> rebuildable g = true ->
      exists g', round_coordinates (Some g) p = Ok (Some g')).
Proof.
  intros Hc. split.
  - intros g' Hg' r Hr. apply round_coordinates_sound in Hg'.
    cbn [option_map] in Hg'. injection Hg' as ->.
    apply rings_map_geometry in Hr as (r0 & H0 & [-> | ->]).
    + now apply Hc.
    + apply (ring_closed_map_ring _ (round_tuple_eqb p)). now apply Hc.
  - intros Hp Hb Hr. apply well_formed_binary64 in Hb.
    rewrite round_coordinates_total;
      [|lia|apply precision_limit_digits; lia|exact Hb|exact Hr].
    cbn [option_map]. eauto.
Qed.

Lemma ring_closure_preserved_witness :
  (forall r, In r (rings (Polygon (mkPolygon jakarta_cw []))) ->
             ring_closed r = true)
  /\ exists g',
      round_coordinates (Some (Polygon (mkPolygon jakarta_cw []))) 6
      = Ok (Some g')
      /\ forall r, In r (rings g') -> ring_closed r = true.
Proof.
  assert (Hc : forall r, In r (rings (Polygon (mkPolygon jakarta_cw []))) ->
                         ring_closed r = true).
  { simpl. intros r [<- | []]. reflexivity. }
  split; [exact Hc|].
  destruct (ring_closure_preserved (Polygon (mkPolygon jakarta_cw [])) 6 Hc)
    as [Hclosed Hreturns].
  destruct Hreturns as [g' Hg'];
    [unfold precision_limit; lia | reflexivity | reflexivity |].
  exists g'. split; [exact Hg'|]. exact (Hclosed g' Hg').
Defined.

(** ** Precision range *)




(** ** Structure preservation *)


Section StructurePreserved.
Context {library : Shapely}.


End StructurePreserved.


(** A ring whose ends differ, here in the third ordinate only, comes back
    from the rounding with one more tuple. *)
Example open_ring_gains_a_tuple :
  let z (x y h : Z) := XYZ (float_of_int x) (float_of_int y) (float_of_int h) in
  let ring := [z 0 0 1; z 1 0 1; z 1 1 1; z 0 0 2] in
  option_map vertex_count
    (match round_coordinates (Some (Polygon (mkPolygon ring []))) 6 with
     | Ok rounded => rounded
     | Raise _ => None
     end)
  = Some 5%nat.
Proof. vm_compute. reflexivity. Qed.

(** ** The matches of the pattern *)

Lemma too_long_monotone (m m' : Z) (t : text) :
  m <= m' -> too_long m' t = true -> too_long m t = true.
Proof.
  unfold too_long. intros Hm H. apply Z.ltb_lt in H. apply Z.ltb_lt. lia.
Qed.

Section PrecisionCheckProperties.
Context {library : Shapely}.

(** X3.  Allowing more decimals never reports more: a geometry reported
    with [max_decimals = m'] is reported with every smaller bound [m]. *)
Theorem check_precision_monotone
    (geom : option geometry) (m m' : Z) :
  m <= m' ->
  check_coordinate_precision geom m' = true ->
  check_coordinate_precision geom m = true.
Proof.
  intros Hm. destruct geom as [g|]; [|discriminate].
  unfold check_coordinate_precision, flagged. intros H.
  apply existsb_exists in H. destruct H as (t & Ht & Hlong).
  apply existsb_exists. exists t. split; [exact Ht|].
  now apply (too_long_monotone m m').
Qed.

End PrecisionCheckProperties.

Lemma check_precision_monotone_witness :
  4 <= 8
  /\ check_coordinate_precision (Some scenario_point) 8 = true
  /\ check_coordinate_precision (Some scenario_point) 4 = true.
Proof.
  assert (H : 4 <= 8) by lia.
  assert (H8 : check_coordinate_precision (Some scenario_point) 8 = true)
    by (vm_compute; reflexivity).
  split; [exact H|]. split; [exact H8|].
  exact (check_precision_monotone (Some scenario_point) 4 8 H H8).
Defined.

(** One record of the sample frame has more than four decimals. *)
Example sample_frame_before :
  high_precision_count (library := sample_library) sample_frame 4 = 1%nat.
Proof. vm_compute. reflexivity. Qed.

Lemma is_dot_eq (c : ascii) : is_dot c = true -> c = "."%char.
Proof. apply Ascii.eqb_eq. Qed.

Lemma is_minus_eq (c : ascii) : is_minus c = true -> c = "-"%char.
Proof. apply Ascii.eqb_eq. Qed.

Lemma signed_digits_snoc (acc : text) (c : ascii) :
  signed_digits acc -> is_digit c = true -> signed_digits (acc ++ [c]).
Proof.
  intros (sign & whole & -> & Hs & Hw & Hne) Hc.
  exists sign, (whole ++ [c]). rewrite app_assoc. repeat split; auto.
  - unfold all_digits in *. rewrite forallb_app, Hw. cbn [forallb].
    now rewrite Hc.
  - intros E. apply app_eq_nil in E. destruct E as [_ E]. discriminate E.
Qed.

Lemma reads_start (c : ascii) (seen : text) : reads (start c) (seen ++ [c]).
Proof.
  unfold start. destruct (is_digit c) eqn:Hd.
  - split; [|now exists seen]. exists [], [c]. repeat split; auto.
    + cbn [all_digits forallb]. now rewrite Hd.
    + discriminate.
  - destruct (is_minus c) eqn:Hm; [|exact I].
    apply is_minus_eq in Hm. subst c. now exists seen.
Qed.

Lemma reads_step (st : scan_state) (c : ascii) (seen : text) :
  reads st seen -> reads (step st c) (seen ++ [c]).
Proof.
  intros H. destruct st as [| |acc|acc|acc frac]; cbn [step].
  - apply reads_start.
  - destruct (is_digit c) eqn:Hd; [|apply reads_start].
    destruct H as (before & ->). split.
    + exists ["-"%char], [c]. repeat split; auto.
      * cbn [all_digits forallb]. now rewrite Hd.
      * discriminate.
    + exists before. now rewrite <- app_assoc.
  - destruct H as (Hacc & before & ->).
    destruct (is_digit c) eqn:Hd.
    + split; [now apply signed_digits_snoc|].
      exists before. now rewrite <- app_assoc.
    + destruct (is_dot c) eqn:Hp; [|apply reads_start].
      apply is_dot_eq in Hp. subst c. split; [exact Hacc|].
      exists before. now rewrite <- app_assoc.
  - destruct H as (Hacc & before & ->).
    destruct (is_digit c) eqn:Hd; [|apply reads_start].
    split; [exact Hacc|]. split; [|split; [discriminate|]].
    + cbn [all_digits forallb]. now rewrite Hd.
    + exists before. now rewrite <- !app_assoc.
  - destruct H as (Hacc & Hfrac & Hne & before & ->).
    destruct (is_digit c) eqn:Hd; [|apply reads_start].
    split; [exact Hacc|]. split; [|split].
    + unfold all_digits in *. rewrite forallb_app, Hfrac. cbn [forallb].
      now rewrite Hd.
    + intros E. apply app_eq_nil in E. destruct E as [_ E]. discriminate E.
    + exists before. rewrite <- !app_assoc. reflexivity.
Qed.

Lemma signed_digits_no_dot (acc : text) : signed_digits acc -> no_dot acc = true.
Proof.
  intros (sign & whole & -> & Hs & Hw & _). rewrite no_dot_app.
  rewrite (digits_no_dot whole Hw), andb_true_r.
  destruct Hs as [-> | ->]; reflexivity.
Qed.

Lemma reads_flush (st : scan_state) (seen : text) (m : text) :
  reads st seen -> In m (flush st) ->
  decimal_token m
  /\ (exists a f, split_dot m = [a; f] /\ f <> [])
  /\ exists before, seen = before ++ m.
Proof.
  destruct st as [| |acc|acc|acc frac]; cbn [flush]; intros H Hin;
    try (destruct Hin; fail).
  destruct H as (Hacc & Hfrac & Hne & before & ->).
  destruct Hin as [<- | []].
  split; [|split].
  - destruct Hacc as (sign & whole & -> & Hs & Hw & Hwne).
    exists sign, whole, frac. rewrite <- app_assoc. repeat split; auto.
  - exists acc, frac. split; [|exact Hne].
    apply split_dot_match; [now apply signed_digits_no_dot|].
    now apply digits_no_dot.
  - now exists before.
Qed.

Lemma reads_findall (s : text) :
  forall (st : scan_state) (seen m : text),
    reads st seen -> In m (findall_from st s) ->
    decimal_token m
    /\ (exists a f, split_dot m = [a; f] /\ f <> [])
    /\ exists before after, seen ++ s = before ++ m ++ after.
Proof.
  induction s as [|c s IH]; intros st seen m Hst Hm; cbn [findall_from] in Hm.
  - destruct (reads_flush st seen m Hst Hm) as (Ht & Hsp & before & ->).
    split; [exact Ht|]. split; [exact Hsp|]. exists before, [].
    now rewrite !app_nil_r.
  - apply in_app_or in Hm. destruct Hm as [Hm | Hm].
    + unfold emit in Hm. destruct (is_digit c); [destruct Hm|].
      destruct (reads_flush st seen m Hst Hm) as (Ht & Hsp & before & ->).
      split; [exact Ht|]. split; [exact Hsp|]. exists before, (c :: s).
      now rewrite <- app_assoc.
    + destruct (IH _ _ m (reads_step st c seen Hst) Hm)
        as (Ht & Hsp & before & after & E).
      split; [exact Ht|]. split; [exact Hsp|]. exists before, after.
      rewrite <- E, <- app_assoc. reflexivity.
Qed.

(** X4.  Every token the pattern finds is a piece of the text made of an
    optional minus sign, digits, one point and digits; splitting it at the
    point gives exactly two parts, so the index [1] taken by the check is
    always in range and names a non-empty run of digits. *)
Theorem matches_are_decimal_tokens (s m : text) :
  In m (findall s) ->
  decimal_token m
  /\ (exists a f, split_dot m = [a; f] /\ f <> [])
  /\ exists before after, s = before ++ m ++ after.
Proof.
  intros Hm. exact (reads_findall s Idle [] m I Hm).
Qed.

Lemma matches_are_decimal_tokens_witness :
  In (lit "-6.2") (findall (lit "POINT (106.8 -6.2)"))
  /\ decimal_token (lit "-6.2")
  /\ (exists a f, split_dot (lit "-6.2") = [a; f] /\ f <> [])
  /\ exists before after,
      lit "POINT (106.8 -6.2)" = before ++ lit "-6.2" ++ after.
Proof.
  assert (H : In (lit "-6.2") (findall (lit "POINT (106.8 -6.2)")))
    by (vm_compute; auto).
  split; [exact H|].
  exact (matches_are_decimal_tokens _ _ H).
Defined.

(** ** The audit on unusual frames *)

Lemma count_geometry_raises (s : stats) (geom : option geometry) (e : exn) :
  count_geometry s geom = Raise e ->
  e = ValueError /\ geom = Some (MultiPolygon []).
Proof.
  destruct geom as [[c|cs|p|ps|ls|ps|gs]|]; cbn [count_geometry];
    try discriminate.
  destruct ps as [|p ps]; cbn [largest_poly py_max bind].
  - intros H. injection H as <-. auto.
  - discriminate.
Qed.

Lemma count_geometries_raises (gdf : list (option geometry)) :
  In (Some (MultiPolygon [])) gdf ->
  forall s, count_geometries s gdf = Raise ValueError.
Proof.
  induction gdf as [|geom rest IH]; intros Hin s; [destruct Hin|].
  cbn [count_geometries].
  destruct (count_geometry s geom) as [s1|e] eqn:Hc; cbn [bind].
  - destruct Hin as [-> | Hin]; [discriminate Hc | now apply IH].
  - now destruct (count_geometry_raises s geom e Hc) as [-> _].
Qed.

(** X9.  A multi-polygon without members makes the audit fail: [max] of an
    empty sequence raises [ValueError], wherever the record stands in the
    frame, and no count is returned. *)
Theorem audit_fails_on_memberless_multipolygon
    (gdf : list (option geometry)) :
  In (Some (MultiPolygon [])) gdf ->
  check_orientation_stats gdf = Raise ValueError.
Proof. intros H. now apply count_geometries_raises. Qed.

Lemma audit_fails_on_memberless_multipolygon_witness :
  In (Some (MultiPolygon []))
     [Some scenario_point; Some (MultiPolygon []); None]
  /\ check_orientation_stats
       [Some scenario_point; Some (MultiPolygon []); None]
     = Raise ValueError.
Proof.
  assert (H : In (Some (MultiPolygon []))
                 [Some scenario_point; Some (MultiPolygon []); None])
    by (right; left; reflexivity).
  split; [exact H|].
  exact (audit_fails_on_memberless_multipolygon _ H).
Defined.

(** ** The record types through the processing *)

Lemma same_class_refl (geom : option geometry) : same_class geom geom.
Proof. split; auto. Qed.

Lemma same_class_trans (a b c : option geometry) :
  same_class a b -> same_class b c -> same_class a c.
Proof. intros [H1 H2] [H3 H4]. split; [congruence | auto]. Qed.

Lemma nonempty_member_kept (f : coord -> coord) (ps : list polygon) :
  forallb polygon_is_empty ps = false ->
  filter (fun p => negb (polygon_is_empty p)) (map (map_polygon f) ps) <> [].
Proof.
  induction ps as [|p ps IH]; simpl; [discriminate|].
  rewrite map_polygon_is_empty.
  destruct (polygon_is_empty p); simpl; [exact IH | discriminate].
Qed.

Lemma round_same_class (geom : option geometry) (p : Z) :
  same_class geom (option_map (map_geometry (round_tuple p)) geom).
Proof.
  destruct geom as [g|]; [|apply same_class_refl]. split.
  - apply map_geometry_type.
  - cbn [option_map]. intros H. injection H as H.
    destruct g as [c|cs|pg|ps|ls|ps|gs]; try discriminate H.
    cbn [map_geometry] in H.
    destruct (forallb polygon_is_empty ps) eqn:He; [exact (f_equal Some H)|].
    unfold multipolygon in H. injection H as H.
    now destruct (nonempty_member_kept (round_tuple p) ps He).
Qed.

Lemma round_frame_same_class
    (gdf rounded : list (option geometry)) (p : Z) :
  round_frame gdf p = Ok rounded -> Forall2 same_class gdf rounded.
Proof.
  unfold round_frame. intros H. apply mapM_Forall2 in H.
  induction H as [|geom geom' l l' Hg _ IH]; constructor; [|exact IH].
  apply round_coordinates_sound in Hg. subst geom'. apply round_same_class.
Qed.

Lemma round_frame_valid (gdf rounded : list (option geometry)) (p : Z) :
  forallb valid_rings gdf = true ->
  round_frame gdf p = Ok rounded -> forallb valid_rings rounded = true.
Proof.
  unfold round_frame. intros Hv H. apply mapM_Forall2 in H.
  induction H as [|geom geom' l l' Hg _ IH]; [reflexivity|].
  cbn [forallb] in *. apply andb_prop in Hv as [Hv Hvs].
  rewrite (IH Hvs), andb_true_r.
  apply round_coordinates_sound in Hg. subst geom'.
  destruct geom as [g|]; [|reflexivity]. cbn [option_map valid_rings] in *.
  now apply (map_geometry_valid _ (round_tuple_eqb p)).
Qed.

Lemma round_frame_returns (gdf : list (option geometry)) (p : Z) :
  0 <= p <= precision_limit ->
  forallb all_binary64 gdf = true ->
  forallb option_rebuildable gdf = true ->
  exists rounded, round_frame gdf p = Ok rounded.
Proof.
  intros Hp. unfold round_frame.
  induction gdf as [|geom rest IH]; cbn [forallb mapM]; [eauto|].
  intros Hb Hr. apply andb_prop in Hb as [Hb Hbs].
  apply andb_prop in Hr as [Hr Hrs].
  rewrite round_coordinates_total;
    [|lia|apply precision_limit_digits; lia|exact Hb|exact Hr].
  cbn [bind]. destruct (IH Hbs Hrs) as [rest' ->]. cbn [bind].
  eauto.
Qed.

Section ProcessingClasses.
Context {library : Shapely}.
Hypothesis orient_keeps_shape : keeps_shape orient.

Lemma oriented_member_kept (ps ps' : list polygon) :
  forallb valid_ring (flat_map polygon_solid_rings ps) = true ->
  mapM orient ps = Ok ps' ->
  forallb polygon_is_empty ps = false ->
  filter (fun p => negb (polygon_is_empty p)) ps' <> [].
Proof.
  intros Hv H. apply mapM_Forall2 in H.
  induction H as [|p p' l l' Hp _ IH]; simpl; [discriminate|].
  cbn [flat_map] in Hv. rewrite forallb_app in Hv.
  apply andb_prop in Hv as [Hv Hvs].
  destruct (orient_keeps_shape p p' Hv Hp) as [-> _].
  destruct (polygon_is_empty p); simpl; [exact (IH Hvs) | discriminate].
Qed.

Lemma fix_same_class (geom : option geometry) (log : error_log) :
  valid_rings geom = true ->
  same_class geom (fst (fix_cw_to_ccw geom log)).
Proof.
  intros Hv. unfold fix_cw_to_ccw.
  destruct (fix_cw_to_ccw_try geom) as [g'|e] eqn:Hf; cbn [fst];
    [|apply same_class_refl].
  split; [now apply fix_cw_to_ccw_try_tag|].
  destruct geom as [g|]; cbn [fix_cw_to_ccw_try] in Hf;
    [|injection Hf as <-; discriminate].
  destruct (is_empty g) eqn:He; [injection Hf as <-; auto|].
  destruct g as [c|cs|pg|ps|ls|ps|gs];
    try (injection Hf as <-; now auto).
  - destruct (orient pg) as [pg'|e]; cbn [bind] in Hf; [|discriminate].
    injection Hf as <-. discriminate.
  - destruct (mapM orient ps) as [ps'|e] eqn:Ho; cbn [bind] in Hf;
      [|discriminate].
    injection Hf as <-. unfold multipolygon. intros H. injection H as H.
    now destruct (oriented_member_kept ps ps' Hv Ho He).
Qed.

Lemma fix_frame_same_class (gdf : list (option geometry)) (log : error_log) :
  forallb valid_rings gdf = true ->
  Forall2 same_class gdf (fst (fix_frame gdf log)).
Proof.
  revert log. induction gdf as [|geom rest IH]; intros log Hv; [constructor|].
  cbn [forallb] in Hv. apply andb_prop in Hv as [Hv Hvs].
  cbn [fix_frame]. pose proof (fix_same_class geom log Hv) as H.
  destruct (fix_cw_to_ccw geom log) as [fixed log'].
  specialize (IH log' Hvs). destruct (fix_frame rest log') as [rest' log''].
  cbn [fst] in *. now constructor.
Qed.

End ProcessingClasses.

Lemma Forall2_trans' {A : Type} (R : A -> A -> Prop) (l1 l2 l3 : list A) :
  (forall a b c, R a b -> R b c -> R a c) ->
  Forall2 R l1 l2 -> Forall2 R l2 l3 -> Forall2 R l1 l3.
Proof.
  intros HR H12. revert l3. induction H12 as [|a b l1 l2 Hab _ IH];
    intros l3 H23; inversion H23; subst; constructor; eauto.
Qed.

Lemma same_class_polygonal (a b : option geometry) :
  same_class a b -> is_polygonal b = is_polygonal a.
Proof.
  intros [Ht _].
  destruct a as [[ | | | | | | ]|], b as [[ | | | | | | ]|];
    cbn [tag_of geom_type] in Ht; try discriminate Ht; reflexivity.
Qed.

Lemma same_class_counts (l l' : list (option geometry)) :
  Forall2 same_class l l' ->
  count_other l' = count_other l
  /\ length l' = length l
  /\ ((forall ps, In (Some (MultiPolygon ps)) l -> ps <> []) ->
      forall ps, In (Some (MultiPolygon ps)) l' -> ps <> []).
Proof.
  unfold count_other.
  induction 1 as [|a b l l' Hab _ (IH1 & IH2 & IH3)].
  - repeat split; auto.
  - cbn [filter length]. rewrite (same_class_polygonal a b Hab).
    split; [|split].
    + destruct (is_polygonal a); cbn [negb length]; congruence.
    + congruence.
    + intros Hne ps [E | Hin] ->.
      * destruct Hab as [_ Hm]. specialize (Hm E).
        now apply (Hne [] (or_introl Hm)).
      * apply (IH3 (fun ps H => Hne ps (or_intror H)) [] Hin). reflexivity.
Qed.

Lemma audit_returns_members (gdf : list (option geometry)) (s : stats) :
  check_orientation_stats gdf = Ok s ->
  forall ps, In (Some (MultiPolygon ps)) gdf -> ps <> [].
Proof.
  intros Hs ps Hin ->. unfold check_orientation_stats in Hs.
  rewrite (count_geometries_raises gdf Hin) in Hs. discriminate Hs.
Qed.

Section ProcessingAudit.
Context {library : Shapely}.

(** X11.  The processing moves no record between the polygonal and the
    other classes.  When the rings of the frame are valid, [orient] keeps
    the shape of such polygons and the audit of the uploaded frame returns,
    the audit of every frame the processing returns does so too, with the
    same count of other records and the same count of polygonal ones
    (clockwise and counter clockwise together).  The processing returns a
    frame, for a precision from 0 to 1000, when the ordinates are binary64
    numbers and the library can rebuild every geometry. *)
Theorem audit_classes_survive_processing
    (gdf : list (option geometry)) (p : Z) (fix_orientation : bool)
    (log : error_log) (s : stats) :
  keeps_shape orient ->
  forallb valid_rings gdf = true ->
  check_orientation_stats gdf = Ok s ->
  (forall out log',
      process gdf p fix_orientation log = Ok (out, log') ->
      exists s',
        check_orientation_stats out = Ok s'
        /\ other_count s' = other_count s
        /\ (ccw_count s' + cw_count s' = ccw_count s + cw_count s)%nat)
  /\ (0 <= p <= precision_limit ->
      forallb all_binary64 gdf = true ->
      forallb option_rebuildable gdf = true ->
      exists out log', process gdf p fix_orientation log = Ok (out, log')).
Proof.
  intros Hk Hv Hs. split.
  - intros out log' Hproc. unfold process in Hproc.
    destruct (round_frame gdf p) as [rounded|e] eqn:Hr; cbn [bind] in Hproc;
      [|discriminate].
    pose proof (round_frame_same_class gdf rounded p Hr) as Hc.
    assert (Hout : Forall2 same_class gdf out).
    { destruct fix_orientation.
      - pose proof (fix_frame_same_class Hk rounded log
                      (round_frame_valid gdf rounded p Hv Hr)) as Hf.
        destruct (fix_frame rounded log) as [out0 log0]. cbn [fst] in Hf.
        injection Hproc as <- <-.
        exact (Forall2_trans' same_class _ _ _ same_class_trans Hc Hf).
      - injection Hproc as <- <-. exact Hc. }
    destruct (same_class_counts gdf out Hout) as (Hother & Hlen & Hmem).
    pose proof (audit_returns_members gdf s Hs) as Hne.
    destruct (count_geometries_total gdf Hne (mkStats 0 0 0))
      as (s0 & Hs0 & Ht0 & Ho0).
    destruct (count_geometries_total out (Hmem Hne) (mkStats 0 0 0))
      as (s' & Hs' & Ht' & Ho').
    unfold check_orientation_stats in Hs. rewrite Hs in Hs0.
    injection Hs0 as <-.
    exists s'. split; [exact Hs'|].
    unfold total_count in *. cbn [ccw_count cw_count other_count] in *. lia.
  - intros Hp Hb Hr. unfold process.
    destruct (round_frame_returns gdf p Hp Hb Hr) as [rounded ->].
    cbn [bind]. destruct fix_orientation; [|eauto].
    destruct (fix_frame rounded log) as [out log']. eauto.
Qed.

End ProcessingAudit.

Example clockwise_frame_before :
  check_orientation_stats clockwise_frame = Ok (mkStats 0 1 2).
Proof. vm_compute. reflexivity. Qed.

(** With the sample [orient], on a frame of a clockwise polygon, a
    missing geometry and a point. *)
Lemma audit_classes_survive_processing_witness :
  keeps_shape (orient (Shapely := sample_library))
  /\ forallb valid_rings clockwise_frame = true
  /\ check_orientation_stats clockwise_frame = Ok (mkStats 0 1 2)
  /\ exists out log' s',
      process (library := sample_library) clockwise_frame 6 true []
      = Ok (out, log')
      /\ check_orientation_stats out = Ok s'
      /\ other_count s' = 2%nat
      /\ (ccw_count s' + cw_count s' = 1)%nat.
Proof.
  assert (Hk : keeps_shape (orient (Shapely := sample_library)))
    by exact orient_by_area_keeps_shape.
  assert (Hs : check_orientation_stats clockwise_frame = Ok (mkStats 0 1 2))
    by (vm_compute; reflexivity).
  assert (Hv : forallb valid_rings clockwise_frame = true) by reflexivity.
  split; [exact Hk|]. split; [exact Hv|]. split; [exact Hs|].
  destruct (audit_classes_survive_processing (library := sample_library)
              clockwise_frame 6 true [] _ Hk Hv Hs) as [Hkeep Hreturns].
  destruct Hreturns as (out & log' & Hproc);
    [unfold precision_limit; lia | reflexivity | reflexivity |].
  exists out, log'. destruct (Hkeep out log' Hproc) as (s' & Hs' & Ho & Hp).
  exists s'. auto.
Defined.

(** ** File names *)

Lemma split_dot_last (base ext : text) :
  no_dot ext = true ->
  exists first rest, split_dot (base ++ "."%char :: ext) = first :: rest ++ [ext].
Proof.
  intros Hext. induction base as [|c base (first & rest & IH)].
  - exists [], []. cbn [app split_dot is_dot]. cbn.
    now rewrite (split_dot_no_dot ext Hext).
  - change ((c :: base) ++ "."%char :: ext)
      with (c :: (base ++ "."%char :: ext)).
    cbn [split_dot]. rewrite IH. destruct (is_dot c).
    + exists [], (first :: rest). reflexivity.
    + exists (c :: first), rest. reflexivity.
Qed.

Lemma last_part_after_dot (base ext : text) :
  no_dot ext = true -> last_part (base ++ "."%char :: ext) = ext.
Proof.
  intros Hext. unfold last_part.
  destruct (split_dot_last base ext Hext) as (first & rest & ->).
  change (first :: rest ++ [ext]) with ((first :: rest) ++ [ext]).
  apply last_last.
Qed.

Lemma last_part_no_dot (name : text) :
  no_dot name = true -> last_part name = name.
Proof.
  intros H. unfold last_part. now rewrite (split_dot_no_dot name H).
Qed.

(** X12.  The type of an upload is decided by the text after the last point
    of its name, compared in lower case with geojson, csv and zip; the text
    before that point plays no part, and a name without a point is taken
    whole as its own extension. *)
Theorem file_type_by_last_extension (base ext : text) :
  no_dot ext = true ->
  detect_file_type (base ++ "."%char :: ext) = extension_type (lower ext)
  /\ detect_file_type ext = extension_type (lower ext).
Proof.
  intros Hext. unfold detect_file_type.
  now rewrite (last_part_after_dot base ext Hext), (last_part_no_dot ext Hext).
Qed.

Lemma file_type_by_last_extension_witness :
  no_dot (lit "GeoJSON") = true
  /\ detect_file_type (lit "parcels.v2" ++ "."%char :: lit "GeoJSON")
     = extension_type (lower (lit "GeoJSON"))
  /\ detect_file_type (lit "GeoJSON") = extension_type (lower (lit "GeoJSON")).
Proof.
  assert (H : no_dot (lit "GeoJSON") = true) by reflexivity.
  split; [exact H|].
  exact (file_type_by_last_extension (lit "parcels.v2") (lit "GeoJSON") H).
Defined.

Example upper_case_extension :
  detect_file_type (lit "parcels.v2.GeoJSON") = Some GeoJSON
  /\ detect_file_type (lit "csv") = Some CSV
  /\ detect_file_type (lit "archive.tar.gz") = None.
Proof. vm_compute. repeat split. Qed.

Lemma output_filename_split
    (name : text) (p : Z) (fix_orientation : bool) (f : output_format) :
  exists base,
    output_filename name p fix_orientation f
    = base ++ "."%char :: output_extension f.
Proof.
  unfold output_filename.
  exists (original_name name ++ lit "_fixed_" ++ str_int p ++ lit "dp"
          ++ (if fix_orientation then lit "_ccw" else [])).
  rewrite <- !app_assoc. reflexivity.
Qed.

(** X13.  A download can be uploaded again when it is GeoJSON or a zipped
    shapefile: whatever the original name, the precision and the
    orientation option, the name given to the download is detected as
    GeoJSON, respectively Shapefile.  The name of a GeoPackage download is
    an unsupported file format. *)
Theorem download_name_detected
    (name : text) (p : Z) (fix_orientation : bool) :
  detect_file_type (output_filename name p fix_orientation OutGeoJSON)
  = Some GeoJSON
  /\ detect_file_type (output_filename name p fix_orientation OutShapefile)
     = Some Shapefile
  /\ detect_file_type (output_filename name p fix_orientation OutGeoPackage)
     = None.
Proof.
  destruct (output_filename_split name p fix_orientation OutGeoJSON)
    as (b1 & ->).
  destruct (output_filename_split name p fix_orientation OutShapefile)
    as (b2 & ->).
  destruct (output_filename_split name p fix_orientation OutGeoPackage)
    as (b3 & ->).
  unfold detect_file_type.
  rewrite !last_part_after_dot by reflexivity.
  repeat split.
Qed.

Lemma rsplit_dot_no_dot (s : text) : no_dot s = true -> rsplit_dot s = None.
Proof.
  induction s as [|c s IH]; [reflexivity|]. cbn [no_dot forallb rsplit_dot].
  intros H. apply andb_prop in H. destruct H as [Hc Hs].
  fold (no_dot s) in Hs. rewrite (IH Hs).
  apply negb_true_iff in Hc. now rewrite Hc.
Qed.

Lemma rsplit_dot_last (base ext : text) :
  no_dot ext = true ->
  rsplit_dot (base ++ "."%char :: ext) = Some (base, ext).
Proof.
  intros Hext. induction base as [|c base IH].
  - cbn [app rsplit_dot]. now rewrite (rsplit_dot_no_dot ext Hext).
  - change ((c :: base) ++ "."%char :: ext)
      with (c :: (base ++ "."%char :: ext)).
    cbn [rsplit_dot]. now rewrite IH.
Qed.

Lemma last_dot (s : text) :
  no_dot s = false ->
  exists base ext, s = base ++ "."%char :: ext /\ no_dot ext = true.
Proof.
  induction s as [|c s IH]; [discriminate|]. intros H.
  destruct (no_dot s) eqn:Hs.
  - cbn [no_dot forallb] in H. fold (no_dot s) in H.
    rewrite Hs, andb_true_r in H. apply negb_false_iff in H.
    apply is_dot_eq in H. subst c. now exists [], s.
  - destruct (IH eq_refl) as (base & ext & -> & Hext).
    now exists (c :: base), ext.
Qed.

(** X14.  The two ways in which the script cuts a file name agree: when the
    name has a point, the text kept for the download name, a point and the
    extension read for the detection give the name back, and that
    extension has no point; when it has none, both are the whole name. *)
Theorem name_parts_recombine (name : text) :
  if no_dot name
  then original_name name = name /\ last_part name = name
  else original_name name ++ "."%char :: last_part name = name
       /\ no_dot (last_part name) = true.
Proof.
  destruct (no_dot name) eqn:H.
  - unfold original_name.
    now rewrite (rsplit_dot_no_dot name H), (last_part_no_dot name H).
  - destruct (last_dot name H) as (base & ext & -> & Hext).
    unfold original_name.
    rewrite (rsplit_dot_last base ext Hext), (last_part_after_dot base ext Hext).
    auto.
Qed.

Example name_parts_sample :
  original_name (lit "parcels.v2.GeoJSON") = lit "parcels.v2"
  /\ last_part (lit "parcels.v2.GeoJSON") = lit "GeoJSON"
  /\ output_filename (lit "parcels.v2.GeoJSON") 6 true OutShapefile
     = lit "parcels.v2_fixed_6dp_ccw.zip".
Proof. vm_compute. repeat split. Qed.

(** ** Ordinates that the rounding leaves alone *)

Lemma decimal_fixed (p : Z) (s : bool) (n : Z) :
  1 <= p <= 15 ->
  round_value p (float_of_text (TDec s n p)) = float_of_text (TDec s n p).
Proof.
  intros Hp. destruct (pow10_bounds p Hp) as [HD _]. cbn [float_of_text].
  destruct (Z.le_gt_cases n 0) as [Hn | Hn].
  - unfold nearest. destruct (Z.leb_spec n 0); [reflexivity | lia].
  - destruct (nearest s n (10 ^ p)) as [|s'|s'|s' m e] eqn:Hy;
      try reflexivity.
    destruct (nearest_fin s s' n (10 ^ p) m e Hn HD Hy) as (-> & _).
    now apply (round_value_fixed p s n).
Qed.

Lemma decimal_ordinate_fixed (p : Z) (x : float) :
  1 <= p <= 15 -> decimal_ordinate p x -> round_value p x = x.
Proof.
  intros Hp [Hx | (s & n & ->)]; [|now apply decimal_fixed].
  destruct x; try discriminate Hx; reflexivity.
Qed.

Lemma decimal_coord_fixed (p : Z) (c : coord) :
  1 <= p <= 15 -> decimal_coord p c -> round_tuple p c = c.
Proof.
  intros Hp. destruct c as [x y|x y z]; cbn [decimal_coord round_tuple].
  - intros [Hx Hy]. now rewrite !decimal_ordinate_fixed.
  - intros (Hx & Hy & Hz). now rewrite !decimal_ordinate_fixed.
Qed.

Lemma decimal_ordinate_binary64 (p : Z) (x : float) :
  0 <= p -> decimal_ordinate p x -> binary64 x = true.
Proof.
  intros Hp [Hx | (s & n & ->)].
  - destruct x; try discriminate Hx; reflexivity.
  - cbn [float_of_text]. apply nearest_binary64.
    apply Z.pow_pos_nonneg; lia.
Qed.

Lemma decimal_coord_binary64 (p : Z) (c : coord) :
  0 <= p -> decimal_coord p c -> coord_binary64 c = true.
Proof.
  intros Hp. destruct c as [x y|x y z]; cbn [decimal_coord coord_binary64].
  - intros [Hx Hy]. now rewrite !(decimal_ordinate_binary64 p).
  - intros (Hx & Hy & Hz). now rewrite !(decimal_ordinate_binary64 p).
Qed.

Lemma map_polygon_ext (f h : coord -> coord) (pg : polygon) :
  (forall c, In c (polygon_coords pg) -> f c = h c) ->
  map_polygon f pg = map_polygon h pg.
Proof.
  unfold map_polygon, map_ring, polygon_coords, polygon_rings.
  destruct (polygon_is_empty pg); [reflexivity|]. cbn [concat]. intros H.
  f_equal.
  - f_equal. apply map_ext_in. intros c Hc. apply H. apply in_or_app. now left.
  - apply map_ext_in. intros r Hr. f_equal. apply map_ext_in. intros c Hc.
    apply H. apply in_or_app. right. apply in_concat. now exists r.
Qed.

Lemma map_geometry_ext (f h : coord -> coord) (g : geometry) :
  (forall c, In c (coords_of g) -> f c = h c) ->
  map_geometry f g = map_geometry h g.
Proof.
  induction g as [c|cs|pg|ps|ls|ps|gs IH] using geometry_ind';
    cbn [coords_of map_geometry]; intros H.
  - destruct c as [c|]; [|reflexivity]. cbn [option_map]. do 2 f_equal.
    apply H. now left.
  - f_equal. now apply map_ext_in.
  - f_equal. now apply map_polygon_ext.
  - f_equal. now apply map_ext_in.
  - f_equal. apply map_ext_in. intros r Hr. apply map_ext_in. intros c Hc.
    apply H. apply in_concat. now exists r.
  - destruct (forallb polygon_is_empty ps); [reflexivity|]. f_equal.
    apply map_ext_in. intros pg Hpg. apply map_polygon_ext. intros c Hc.
    apply H. apply in_flat_map. now exists pg.
  - f_equal. apply map_ext_in. intros g Hg. rewrite Forall_forall in IH.
    apply IH; [exact Hg|]. intros c Hc. apply H. apply in_flat_map.
    now exists g.
Qed.

Lemma map_polygon_same (pg : polygon) :
  forallb valid_ring (polygon_solid_rings pg) = true ->
  map_polygon (fun c => c) pg = pg.
Proof.
  intros Hv. rewrite (map_polygon_valid (fun c => c)); [|auto|exact Hv].
  destruct (polygon_is_empty pg); [reflexivity|].
  destruct pg as [ext holes]. cbn [exterior interiors]. f_equal.
  - apply map_id.
  - apply map_id_on. intros r _. apply map_id.
Qed.

Lemma valid_ring_sized (r : ring) : valid_ring r = true -> ring_sized r = true.
Proof.
  unfold valid_ring. intros H. apply andb_prop in H as [H _].
  destruct r as [|a [|b [|c r]]]; try reflexivity; discriminate H.
Qed.

Lemma valid_polygon_rebuildable (pg : polygon) :
  forallb valid_ring (polygon_solid_rings pg) = true ->
  polygon_rebuildable pg = true.
Proof.
  unfold polygon_rebuildable, polygon_solid_rings.
  destruct (polygon_is_empty pg); [reflexivity|]. cbn [orb]. intros H.
  apply forallb_forall. intros r Hr. apply valid_ring_sized.
  rewrite forallb_forall in H. now apply H.
Qed.

Lemma filter_nonempty_all (ps : list polygon) :
  existsb polygon_is_empty ps = false ->
  filter (fun p => negb (polygon_is_empty p)) ps = ps.
Proof.
  induction ps as [|p ps IH]; simpl; [reflexivity|].
  destruct (polygon_is_empty p); simpl; [discriminate|].
  intros H. now rewrite IH.
Qed.

(** A geometry with valid rings and without empty parts is rebuilt as it
    is. *)
Lemma no_empty_part_same (g : geometry) :
  forallb valid_ring (solid_rings g) = true ->
  no_empty_part g = true ->
  rebuildable g = true /\ map_geometry (fun c => c) g = g.
Proof.
  induction g as [c|cs|pg|ps|ls|ps|gs IH] using geometry_ind';
    cbn [solid_rings no_empty_part rebuildable map_geometry]; intros Hv H.
  - split; [apply orb_true_r|]. now destruct c.
  - split; [apply orb_true_r|]. now rewrite map_id.
  - split.
    + rewrite (valid_polygon_rebuildable pg Hv). apply orb_true_r.
    + now rewrite map_polygon_same.
  - split; [apply orb_true_r|]. now rewrite map_id.
  - split; [rewrite H; apply orb_true_r|]. f_equal.
    apply map_id_on. intros r _. apply map_id.
  - split.
    + apply orb_true_iff. right. apply forallb_forall. intros pg Hpg.
      apply valid_polygon_rebuildable.
      exact (forallb_flat_map _ _ _ pg Hv Hpg).
    + destruct (forallb polygon_is_empty ps); [reflexivity|].
      apply negb_true_iff in H. unfold multipolygon. f_equal.
      rewrite (map_id_on (map_polygon (fun c => c))).
      * now apply filter_nonempty_all.
      * intros pg Hpg. apply map_polygon_same.
        exact (forallb_flat_map _ _ _ pg Hv Hpg).
  - rewrite Forall_forall in IH. rewrite forallb_forall in H. split.
    + apply orb_true_iff. right. apply forallb_forall.
      intros h Hh. apply (IH h Hh); [|now apply H].
      exact (forallb_flat_map _ _ _ h Hv Hh).
    + f_equal. apply map_id_on. intros h Hh. apply (IH h Hh); [|now apply H].
      exact (forallb_flat_map _ _ _ h Hv Hh).
Qed.

(** X15.  Data that is already at the chosen precision is not touched: when
    every ordinate of a geometry was read from a decimal text with [p]
    fractional digits (or is not a finite number) and its rings are valid,
    rounding it to [p] digits, [p] from 1 to 15, changes no coordinate.
    What comes back is what the library rebuilds from the coordinates as
    they are: the very same geometry when no multi-line and no
    multi-polygon has an empty part. *)
Theorem decimal_geometry_unchanged (g : geometry) (p : Z) :
  1 <= p <= 15 ->
  (forall c, In c (coords_of g) -> decimal_coord p c) ->
  valid_rings (Some g) = true ->
  (rebuildable g = true ->
   round_coordinates (Some g) p = Ok (Some (map_geometry (fun c => c) g)))
  /\ (no_empty_part g = true -> round_coordinates (Some g) p = Ok (Some g)).
Proof.
  intros Hp H Hv.
  assert (Hr : rebuildable g = true ->
               round_coordinates (Some g) p
               = Ok (Some (map_geometry (fun c => c) g))).
  { intros Hb. rewrite round_coordinates_total.
    - cbn [option_map]. do 2 f_equal.
      apply map_geometry_ext. intros c Hc.
      apply (decimal_coord_fixed p c Hp). now apply H.
    - lia.
    - unfold max_digits. lia.
    - cbn [all_binary64]. apply forallb_forall. intros c Hc.
      apply (decimal_coord_binary64 p); [lia|]. now apply H.
    - exact Hb. }
  split; [exact Hr|].
  intros Hn. cbn [valid_rings] in Hv.
  destruct (no_empty_part_same g Hv Hn) as [Hb Hsame].
  now rewrite (Hr Hb), Hsame.
Qed.

Lemma decimal_geometry_unchanged_witness :
  1 <= 1 <= 15
  /\ (forall c, In c (coords_of (Polygon (mkPolygon jakarta_cw []))) ->
                decimal_coord 1 c)
  /\ valid_rings (Some (Polygon (mkPolygon jakarta_cw []))) = true
  /\ round_coordinates (Some (Polygon (mkPolygon jakarta_cw []))) 1
     = Ok (Some (Polygon (mkPolygon jakarta_cw []))).
Proof.
  assert (Hp : 1 <= 1 <= 15) by lia.
  assert (H8 : decimal_ordinate 1 f106_8)
    by (right; exists false, 1068; vm_compute; reflexivity).
  assert (H9 : decimal_ordinate 1 f106_9)
    by (right; exists false, 1069; vm_compute; reflexivity).
  assert (H2 : decimal_ordinate 1 fm6_2)
    by (right; exists true, 62; vm_compute; reflexivity).
  assert (H1 : decimal_ordinate 1 fm6_1)
    by (right; exists true, 61; vm_compute; reflexivity).
  assert (H : forall c, In c (coords_of (Polygon (mkPolygon jakarta_cw []))) ->
                        decimal_coord 1 c).
  { intros c Hc. cbn in Hc.
    repeat (destruct Hc as [<- | Hc]; [split; assumption|]). destruct Hc. }
  assert (Hv : valid_rings (Some (Polygon (mkPolygon jakarta_cw []))) = true)
    by reflexivity.
  split; [exact Hp|]. split; [exact H|]. split; [exact Hv|].
  exact (proj2 (decimal_geometry_unchanged _ 1 Hp H Hv) eq_refl).
Defined.

(** The multi-polygon made of an empty polygon and a unit square comes
    back without its empty member. *)
Example empty_member_is_dropped :
  round_coordinates (Some multi_with_empty_member) 6
  = Ok (Some (MultiPolygon [mkPolygon (square_cw 0 0 1) []])).
Proof. vm_compute. reflexivity. Qed.

(** X16.  The rounding never changes a sign: a NaN and the infinities come
    back as they are, and every other ordinate keeps its sign bit, so that a
    small negative number becomes the negative zero. *)
Theorem rounding_keeps_sign (p : Z) (x : float) :
  sign_bit (round_value p x) = sign_bit x
  /\ (if is_finite x then True else round_value p x = x).
Proof.
  split.
  - destruct x as [|s|s|s m e]; try reflexivity.
    unfold round_value, format_f. cbn [float_of_text].
    generalize (if 0 <=? e then Z.pos m * 2 ^ e * 10 ^ p
                else rne_div (Z.pos m * 10 ^ p) (2 ^ (- e))). intros n.
    unfold nearest. destruct (n <=? 0); [reflexivity|].
    cbv zeta. destruct (_ =? 2 ^ 53); destruct (_ =? 0); try reflexivity;
      destruct (emax <? _); reflexivity.
  - destruct x; cbn [is_finite]; auto.
Qed.

Example small_negative_rounds_to_negative_zero :
  round_value 6 (FFin true 7555786372591432 (-76)) = FZero true.
Proof. vm_compute. reflexivity. Qed.

(** ** The accuracy of the rounding *)

(** [float(s)] does not overflow or vanish on a decimal that lies within
    half a unit of a binary64 number, scaled by [d]. *)
Lemma nearest_finite (s : bool) (n d : Z) :
  0 < n -> 0 < d -> d <= scale ->
  2 * (n * scale) <= 2 * ((2 ^ 53 - 1) * 2 ^ (emax + bias)) * d + scale ->
  exists m e, nearest s n d = FFin s m e.
Proof.
  intros Hn Hd Hds Hmax. rewrite nearest_eq by assumption. cbv zeta.
  destruct (exponent_bounds n d Hn Hd) as [Hup Hlo].
  set (e0 := Z.max (ilog2_ratio n d - 52) emin) in *.
  assert (Hb : emin = - bias) by reflexivity.
  assert (HE : 0 <= e0 + bias) by (unfold e0; lia).
  pose proof (pow2_pos (e0 + bias) HE) as HU.
  pose proof scale_pos as HS.
  assert (HW : 2 ^ (emax + bias) = 2 ^ emax * scale)
    by (apply pow2_bias; discriminate).
  assert (HW1 : 2 <= 2 ^ emax)
    by (change 2 with (2 ^ 1) at 1; apply pow2_mono; unfold emax; lia).
  set (W := 2 ^ (emax + bias)) in *.
  assert (HWS : 2 * scale <= W) by (rewrite HW; nia).
  assert (HdW : W <= d * W) by nia.
  assert (H52 : 2 ^ 52 = 4503599627370496) by reflexivity.
  assert (H53 : 2 ^ 53 = 9007199254740992) by reflexivity.
  assert (Hemax : e0 <= emax).
  { destruct (Z.le_gt_cases e0 emax) as [|Hgt]; [assumption|]. exfalso.
    assert (HUW : 2 * W <= 2 ^ (e0 + bias)).
    { unfold W. change 2 with (2 ^ 1) at 1.
      rewrite <- pow2_split by (unfold emax, bias; lia).
      apply pow2_mono. unfold emax, bias in *. lia. }
    specialize (Hlo ltac:(unfold emax, emin in *; lia)).
    set (U := 2 ^ (e0 + bias)) in *. rewrite H52, H53 in *. nia. }
  set (U := 2 ^ (e0 + bias)) in *.
  assert (HdU : 0 < d * U) by nia.
  pose proof (rne_div_near (n * scale) (d * U) HdU) as Hnear.
  pose proof (rne_div_nonneg (n * scale) (d * U) ltac:(nia) HdU) as Hnn.
  set (mc := rne_div (n * scale) (d * U)) in *.
  destruct (Z.eqb_spec mc (2 ^ 53)) as [Hc | Hc].
  - destruct (Z.ltb_spec emax (e0 + 1)) as [Hov | Hov];
      [|eexists _, _; reflexivity].
    exfalso. assert (Ee : e0 = emax) by lia.
    assert (EU : U = W) by (unfold U, W; now rewrite Ee).
    rewrite Hc, EU, H53 in *.
    replace (2 * ((9007199254740992 - 1) * W) * d)
      with (2 * 9007199254740992 * (d * W) - 2 * (d * W)) in Hmax by ring.
    lia.
  - destruct (Z.eqb_spec mc 0) as [Hz | Hz].
    + exfalso. rewrite Hz in Hnear.
      destruct (Z.eq_dec e0 emin) as [Ee | Ee].
      * assert (EU : U = 1) by (unfold U; rewrite Ee; reflexivity).
        rewrite EU in *. nia.
      * specialize (Hlo ltac:(unfold e0 in *; lia)). rewrite H52 in *. nia.
    + destruct (Z.ltb_spec emax e0) as [Hov | Hov]; [lia|].
      eexists _, _. reflexivity.
Qed.

(** ** [float(s)] returns a closest binary64 number *)

(** The nearest multiple of [b] is at least as close as any other. *)
Lemma nearest_multiple (a b mc k : Z) :
  0 < b -> Z.abs (2 * a - 2 * mc * b) <= b ->
  Z.abs (a - mc * b) <= Z.abs (a - k * b).
Proof.
  intros Hb Hnear.
  destruct (Z.lt_trichotomy k mc) as [Hk | [-> | Hk]]; [|lia|].
  - assert (k * b <= mc * b - b) by nia. lia.
  - assert (mc * b + b <= k * b) by nia. lia.
Qed.

Lemma nearest_optimal (s : bool) (n d : Z) (m m0 : positive) (e e0 : Z) :
  0 < n -> 0 < d -> nearest s n d = FFin s m e -> canonical m0 e0 ->
  Z.abs (n * scale - Z.pos m * 2 ^ (e + bias) * d)
  <= Z.abs (n * scale - Z.pos m0 * 2 ^ (e0 + bias) * d).
Proof.
  intros Hn Hd Hy Hc0. rewrite nearest_eq in Hy by assumption. cbv zeta in Hy.
  assert (Hb : emin = - bias) by reflexivity.
  destruct (exponent_bounds n d Hn Hd) as [Hup Hlo].
  set (e1 := Z.max (ilog2_ratio n d - 52) emin) in *.
  assert (HE : 0 <= e1 + bias) by (unfold e1; lia).
  pose proof (pow2_pos (e1 + bias) HE) as HU.
  pose proof scale_pos as HS.
  assert (H52 : 2 ^ 52 = 4503599627370496) by reflexivity.
  assert (H53 : 2 ^ 53 = 9007199254740992) by reflexivity.
  assert (He0 : emin <= e0 /\ Z.pos m0 < 2 ^ 53).
  { destruct Hc0 as [[Hm He] | [Hm ->]]; rewrite ?H52, ?H53 in *;
      unfold emin in *; lia. }
  destruct He0 as [He0 Hm0].
  assert (HdU : 0 < d * 2 ^ (e1 + bias)) by nia.
  pose proof (rne_div_near (n * scale) (d * 2 ^ (e1 + bias)) HdU) as Hnear.
  pose proof (rne_div_nonneg (n * scale) (d * 2 ^ (e1 + bias))
                ltac:(nia) HdU) as Hnn.
  set (mc := rne_div (n * scale) (d * 2 ^ (e1 + bias))) in *.
  assert (HY : Z.pos m * 2 ^ (e + bias) * d = mc * (d * 2 ^ (e1 + bias))).
  { destruct (Z.eqb_spec mc (2 ^ 53)) as [Hc | Hc].
    - destruct (Z.ltb_spec emax (e1 + 1)); [discriminate|].
      injection Hy as <- <-.
      replace (e1 + 1 + bias) with (1 + (e1 + bias)) by lia.
      rewrite (pow2_split 1 (e1 + bias)) by lia. change (2 ^ 1) with 2.
      rewrite Hc, ?H52, H53. ring.
    - destruct (Z.eqb_spec mc 0); [discriminate|].
      destruct (Z.ltb_spec emax e1); [discriminate|].
      injection Hy as <- <-. rewrite Z2Pos.id by lia. ring. }
  rewrite HY.
  set (B := d * 2 ^ (e1 + bias)) in *.
  destruct (Z.le_gt_cases e1 e0) as [Hle | Hgt].
  - assert (HZ : Z.pos m0 * 2 ^ (e0 + bias) * d
                 = (Z.pos m0 * 2 ^ (e0 - e1)) * B).
    { unfold B. replace (e0 + bias) with ((e0 - e1) + (e1 + bias)) by lia.
      rewrite (pow2_split (e0 - e1) (e1 + bias)) by lia. ring. }
    rewrite HZ. now apply nearest_multiple.
  - specialize (Hlo ltac:(lia)).
    assert (HP : 2 * 2 ^ (e0 + bias) <= 2 ^ (e1 + bias)).
    { change 2 with (2 ^ 1) at 1. rewrite <- pow2_split by lia.
      apply pow2_mono. lia. }
    pose proof (pow2_pos (e0 + bias) ltac:(lia)) as HP0.
    assert (HZlt : Z.pos m0 * 2 ^ (e0 + bias) * d <= 2 ^ 52 * B).
    { unfold B. rewrite H52, H53 in *.
      assert (Z.pos m0 * 2 ^ (e0 + bias) <= 4503599627370496 * 2 ^ (e1 + bias))
        by nia.
      nia. }
    assert (HloB : 2 ^ 52 * B <= n * scale).
    { unfold B. rewrite H52 in *. nia. }
    pose proof (nearest_multiple (n * scale) B mc (2 ^ 52) HdU Hnear) as Hk.
    lia.
Qed.

Lemma canonical_bounds (m : positive) (e : Z) :
  canonical m e ->
  emin <= e <= emax
  /\ Z.pos m * 2 ^ (e + bias) <= (2 ^ 53 - 1) * 2 ^ (emax + bias).
Proof.
  assert (H52 : 2 ^ 52 = 4503599627370496) by reflexivity.
  assert (H53 : 2 ^ 53 = 9007199254740992) by reflexivity.
  intros Hc.
  assert (He : emin <= e <= emax /\ Z.pos m <= 2 ^ 53 - 1).
  { destruct Hc as [[Hm He] | [Hm ->]]; rewrite ?H52, ?H53 in *;
      unfold emin, emax in *; lia. }
  destruct He as [He Hm]. split; [exact He|].
  assert (Hp : 2 ^ (e + bias) <= 2 ^ (emax + bias))
    by (apply pow2_mono; unfold emin, emax, bias in *; lia).
  pose proof (pow2_pos (e + bias) ltac:(unfold emin, bias in *; lia)).
  rewrite H53 in *. nia.
Qed.

(** X17.  The rounding is accurate and cannot overflow: for a precision [p]
    from 1 to 15 a finite binary64 ordinate is rounded to a finite one; the
    two differ by at most one unit of the [p]-th decimal, and by at most
    half such a unit plus half a unit in the last place of the result.  The
    inequalities are stated in units of [2^-1074], multiplied by [10^p] and
    by [2 * 10^p]. *)
Theorem rounding_error_bound (p : Z) (x : float) :
  1 <= p <= 15 -> is_double x -> is_finite x = true ->
  is_finite (round_value p x) = true
  /\ 10 ^ p * Z.abs (scaled_value (round_value p x) - scaled_value x) <= scale
  /\ 2 * 10 ^ p * Z.abs (scaled_value (round_value p x) - scaled_value x)
     <= scale + 10 ^ p * scaled_ulp (round_value p x).
Proof.
  intros Hp Hd Hfin. pose proof scale_pos as HS.
  destruct (pow10_bounds p Hp) as [HD HD50].
  destruct x as [|s|s|s m e]; try discriminate Hfin.
  - change (round_value p (FZero s)) with (FZero s).
    cbn [is_finite scaled_value scaled_ulp]. repeat split; lia.
  - cbn [is_double] in Hd. destruct (canonical_bounds m e Hd) as [He HX].
    unfold round_value. rewrite (format_f_fin p s m e) by lia.
    cbn [float_of_text scaled_value].
    set (X := Z.pos m * 2 ^ (e + bias)) in *.
    pose proof (pow2_pos (e + bias) ltac:(unfold emin, bias in *; lia)) as HP.
    assert (HX0 : 0 < X) by (unfold X; nia).
    pose proof (rne_div_near (X * 10 ^ p) scale HS) as Hnear.
    pose proof (rne_div_nonneg (X * 10 ^ p) scale ltac:(nia) HS) as Hnn.
    set (n := rne_div (X * 10 ^ p) scale) in *.
    destruct (Z.eq_dec n 0) as [En | En].
    + rewrite En in *. change (nearest s 0 (10 ^ p)) with (FZero s).
      cbn [is_finite scaled_value scaled_ulp]. split; [reflexivity|].
      rewrite Z.abs_neq by lia. lia.
    + assert (Hn : 0 < n) by lia.
      assert (HDS : 10 ^ p <= scale).
      { assert (2 ^ 50 <= scale) by (apply pow2_mono; unfold bias; lia). lia. }
      destruct (nearest_finite s n (10 ^ p) Hn HD HDS) as (m' & e' & Hy).
      { set (W := (2 ^ 53 - 1) * 2 ^ (emax + bias)) in *. nia. }
      rewrite Hy. cbn [is_finite scaled_value scaled_ulp].
      split; [reflexivity|].
      destruct (nearest_fin s s n (10 ^ p) m' e' Hn HD Hy) as (_ & _ & Hb).
      pose proof (nearest_optimal s n (10 ^ p) m' m e' e Hn HD Hy Hd) as Hopt.
      fold X in Hopt.
      set (Y := Z.pos m' * 2 ^ (e' + bias)) in *.
      set (P := 2 ^ (e' + bias)) in *.
      destruct (Z.le_ge_cases X Y);
        [rewrite Z.abs_eq by lia | rewrite Z.abs_neq by lia]; lia.
Qed.

Lemma rounding_error_bound_witness :
  1 <= 4 <= 15
  /\ is_double (FFin false 7467774382034521 (-46))
  /\ is_finite (FFin false 7467774382034521 (-46)) = true
  /\ is_finite (round_value 4 (FFin false 7467774382034521 (-46))) = true
  /\ 10 ^ 4
     * Z.abs (scaled_value (round_value 4 (FFin false 7467774382034521 (-46)))
              - scaled_value (FFin false 7467774382034521 (-46)))
     <= scale
  /\ 2 * 10 ^ 4
     * Z.abs (scaled_value (round_value 4 (FFin false 7467774382034521 (-46)))
              - scaled_value (FFin false 7467774382034521 (-46)))
     <= scale
        + 10 ^ 4
          * scaled_ulp (round_value 4 (FFin false 7467774382034521 (-46))).
Proof.
  assert (Hp : 1 <= 4 <= 15) by lia.
  assert (Hd : is_double (FFin false 7467774382034521 (-46))).
  { left. split; [split; vm_compute; congruence|].
    unfold emin, emax. lia. }
  assert (Hf : is_finite (FFin false 7467774382034521 (-46)) = true)
    by reflexivity.
  split; [exact Hp|]. split; [exact Hd|]. split; [exact Hf|].
  exact (rounding_error_bound 4 _ Hp Hd Hf).
Defined.

(** ** The audit does not depend on the order of the records *)

Lemma count_geometry_cases (geom : option geometry) :
  (forall s, count_geometry s geom = Raise ValueError)
  \/ (forall s, count_geometry s geom = Ok (add_ccw s))
  \/ (forall s, count_geometry s geom = Ok (add_cw s))
  \/ (forall s, count_geometry s geom = Ok (add_other s)).
Proof.
  destruct geom as [[c|cs|p|ps|ls|ps|gs]|]; cbn [count_geometry]; auto.
  - destruct (is_ccw (exterior p)); auto.
  - destruct ps as [|p ps]; cbn [largest_poly py_max bind]; auto.
    destruct (is_ccw _); auto.
Qed.

Lemma count_geometries_swap (a b : option geometry)
    (l : list (option geometry)) (s : stats) :
  count_geometries s (a :: b :: l) = count_geometries s (b :: a :: l).
Proof.
  cbn [count_geometries].
  destruct (count_geometry_cases a) as [Ha | [Ha | [Ha | Ha]]];
    destruct (count_geometry_cases b) as [Hb | [Hb | [Hb | Hb]]];
    rewrite ?Ha, ?Hb; cbn [bind]; rewrite ?Ha, ?Hb; cbn [bind];
    try reflexivity;
    destruct s as [x y z];
    unfold add_ccw, add_cw, add_other; cbn [ccw_count cw_count other_count];
    reflexivity.
Qed.

Lemma count_geometries_perm (l l' : list (option geometry)) :
  Permutation l l' -> forall s, count_geometries s l = count_geometries s l'.
Proof.
  induction 1 as [|a l l' _ IH|a b l|l l' l'' _ IH1 _ IH2]; intros s.
  - reflexivity.
  - cbn [count_geometries]. destruct (count_geometry s a); cbn [bind]; auto.
  - apply count_geometries_swap.
  - now rewrite IH1.
Qed.

(** X20.  The audit does not depend on the order of the records: two
    frames that hold the same geometries in different orders get the same
    counts, or fail alike. *)
Theorem audit_ignores_order (gdf gdf' : list (option geometry)) :
  Permutation gdf gdf' ->
  check_orientation_stats gdf = check_orientation_stats gdf'.
Proof. intros H. now apply count_geometries_perm. Qed.

Lemma audit_ignores_order_witness :
  Permutation clockwise_frame (rev clockwise_frame)
  /\ check_orientation_stats clockwise_frame
     = check_orientation_stats (rev clockwise_frame).
Proof.
  assert (H : Permutation clockwise_frame (rev clockwise_frame))
    by apply Permutation_rev.
  split; [exact H|].
  exact (audit_ignores_order _ _ H).
Defined.
